(** * The go.vm compiler: token stream to bytecode

    A shallow embedding of [compiler/compiler.go].  The compiler reads the
    tokens of a lexer with one token of lookahead, appends the encoding of
    every statement to a byte buffer, records the offset of every label in
    [labels] and every reference to a label in [fixups], and patches the
    references once the whole program has been read.

    Bytes are integers in [0, 256); Go's [int] and [int64] are [Z] (no
    computation of the compiler leaves the 64-bit range); the two Go maps
    are finite maps; [fmt.Printf] appends a message to the standard output
    carried in the state; [os.Exit] and [panic] end the run with an outcome
    that carries no compiler state. *)

From Stdlib Require Import ZArith String Ascii List Lia.
From stdpp Require Import gmap strings list fin_maps pretty.

Open Scope Z_scope.

(** ** Tokens *)

Module token.

(** Modelled from the spec: the [token] package is not among the sources.
    The kinds are the ones the compiler names: end of stream, label,
    identifier (a register or a name), integer literal, string literal,
    comma, and one keyword per mnemonic. *)
Inductive TokenType : Set :=
| EOF | LABEL | IDENT | INT | STRING | COMMA
| EXIT | INC | DEC | RANDOM | RET | CALL | IS_INTEGER | IS_STRING
| STRING2INT | INT2STRING | SYSTEM | CMP | CONCAT | DB | DATA | GOTO
| TRAP | JMP | JMPZ | JMPNZ | MEMCPY | NOP | PEEK | POKE | PUSH | POP
| STORE | PRINT_INT | PRINT_STR | ADD | XOR | SUB | MUL | DIV | AND | OR.

Record Token : Set := mk { Type_ : TokenType; Literal : string }.

#[global] Instance TokenType_eq_dec : EqDecision TokenType.
Proof. solve_decision. Defined.

End token.

Abbreviation Token := token.Token.
Abbreviation TokenType := token.TokenType.

(** ** Opcodes *)

Module opcode.

(** Modelled from the spec: the [opcode] package is not among the sources
    and the spec fixes no numbers, only that each mnemonic maps to one
    constant.  The numbering is a parameter of the whole development. *)
Record table : Set := mk {
  EXIT : Z; INT_STORE : Z; INT_PRINT : Z; INT_TOSTRING : Z; INT_RANDOM : Z;
  JUMP_TO : Z; JUMP_Z : Z; JUMP_NZ : Z;
  XOR_OP : Z; ADD_OP : Z; SUB_OP : Z; MUL_OP : Z; DIV_OP : Z;
  INC_OP : Z; DEC_OP : Z; AND_OP : Z; OR_OP : Z;
  STRING_STORE : Z; STRING_PRINT : Z; STRING_CONCAT : Z; STRING_SYSTEM : Z;
  STRING_TOINT : Z;
  CMP_REG : Z; CMP_IMMEDIATE : Z; CMP_STRING : Z; IS_STRING : Z;
  IS_INTEGER : Z;
  NOP_OP : Z; REG_STORE : Z;
  PEEK : Z; POKE : Z; MEMCPY : Z;
  STACK_PUSH : Z; STACK_POP : Z; STACK_RET : Z; STACK_CALL : Z;
  TRAP_OP : Z
}.

End opcode.

(** ** Bytes and strings *)

(** Go's conversion [byte(x)] of an integer: the low eight bits. *)
Definition byte (x : Z) : Z := x mod 256.

(** [byte(s[i])] for every index of a string, in order. *)
Definition bytes_of_string (s : string) : list Z :=
  map (fun c => Z.of_N (N_of_ascii c)) (list_ascii_of_string s).

(** [strings.HasPrefix]. *)
Definition HasPrefix (s pre : string) : bool := String.prefix pre s.

(** [strings.TrimPrefix]: [s] without the leading [pre], or [s] itself. *)
Definition TrimPrefix (s pre : string) : string :=
  if HasPrefix s pre
  then substring (String.length pre) (String.length s - String.length pre) s
  else s.

(** ** strconv *)

Module strconv.

Inductive NumError : Set := ErrSyntax | ErrRange.

(** [lower(c)]: [c | ('x' - 'X')]. *)
Definition lower (c : Z) : Z := Z.lor c 32.

Definition chr (s : string) : Z :=
  match s with
  | String c _ => Z.of_N (N_of_ascii c)
  | EmptyString => -1
  end.

Definition tl (s : string) : string :=
  match s with String _ r => r | EmptyString => EmptyString end.

Definition maxUint64 : Z := 2 ^ 64 - 1.

(** The digit loop of [ParseUint]; [us] records that an underscore was
    skipped (only when the base was given as 0). *)
Fixpoint digits (base0 : bool) (base : Z) (s : list Z) (n : Z) (us : bool)
  : Z * option NumError * bool :=
  match s with
  | [] => (n, None, us)
  | c :: r =>
      if (c =? 95) && base0 then digits base0 base r n true
      else
        let d :=
          if (48 <=? c) && (c <=? 57) then Some (c - 48)
          else if (97 <=? lower c) && (lower c <=? 122)
               then Some (lower c - 97 + 10)
               else None in
        match d with
        | None => (0, Some ErrSyntax, us)
        | Some d =>
            if base <=? d then (0, Some ErrSyntax, us)
            else if maxUint64 / base + 1 <=? n
                 then (maxUint64, Some ErrRange, us)
                 else
                   let n1 := n * base + d in
                   if maxUint64 <? n1 then (maxUint64, Some ErrRange, us)
                   else digits base0 base r n1 us
        end
  end.

(** [underscoreOK]: underscores only between digits or after the base
    prefix.  [i] is the class of the last character: 0 a digit or the
    prefix, 1 an underscore, 2 the beginning, 3 anything else. *)
Fixpoint underscore_scan (hex : bool) (s : list Z) (i : Z) : bool :=
  match s with
  | [] => negb (i =? 1)
  | c :: r =>
      if ((48 <=? c) && (c <=? 57))
         || (hex && (97 <=? lower c) && (lower c <=? 102))
      then underscore_scan hex r 0
      else if c =? 95
           then if i =? 0 then underscore_scan hex r 1 else false
           else if i =? 1 then false
                else underscore_scan hex r 3
  end.

Definition underscoreOK (s : string) : bool :=
  let s := if (chr s =? 45) || (chr s =? 43) then tl s else s in
  if (2 <=? Z.of_nat (String.length s)) && (chr s =? 48)
     && ((lower (chr (tl s)) =? 98) || (lower (chr (tl s)) =? 111)
         || (lower (chr (tl s)) =? 120))
  then underscore_scan (lower (chr (tl s)) =? 120)
         (bytes_of_string (tl (tl s))) 0
  else underscore_scan false (bytes_of_string s) 2.

(** [ParseUint(s, base, 64)] for [base] 0 or 10. *)
Definition ParseUint (s : string) (base : Z) : Z * option NumError :=
  if String.eqb s "" then (0, Some ErrSyntax)
  else
    let base0 := base =? 0 in
    let '(b, r) :=
      if base0 then
        if chr s =? 48 then
          if (3 <=? Z.of_nat (String.length s)) && (lower (chr (tl s)) =? 98)
          then (2, tl (tl s))
          else if (3 <=? Z.of_nat (String.length s))
                  && (lower (chr (tl s)) =? 111)
          then (8, tl (tl s))
          else if (3 <=? Z.of_nat (String.length s))
                  && (lower (chr (tl s)) =? 120)
          then (16, tl (tl s))
          else (8, tl s)
        else (10, s)
      else (base, s) in
    match digits base0 b (bytes_of_string r) 0 false with
    | (n, Some e, _) => (n, Some e)
    | (n, None, us) =>
        if us && negb (underscoreOK s) then (0, Some ErrSyntax)
        else (n, None)
    end.

(** [ParseInt(s, base, 64)] for [base] 0 or 10: the value and the error;
    callers that drop the error see 0 after a syntax error and the
    nearest 64-bit value after a range error. *)
Definition ParseInt (s : string) (base : Z) : Z * option NumError :=
  if String.eqb s "" then (0, Some ErrSyntax)
  else
    let neg := chr s =? 45 in
    let s1 := if (chr s =? 43) || neg then tl s else s in
    match ParseUint s1 base with
    | (_, Some ErrSyntax) => (0, Some ErrSyntax)
    | (un, _) =>
        let cutoff := 2 ^ 63 in
        if negb neg && (cutoff <=? un) then (cutoff - 1, Some ErrRange)
        else if neg && (cutoff <? un) then (- cutoff, Some ErrRange)
        else (if neg then - un else un, None)
    end.

(** [Atoi(s)]: [ParseInt(s, 10, 0)] on a 64-bit platform. *)
Definition Atoi (s : string) : Z * option NumError := ParseInt s 10.

End strconv.

Example ParseInt_42 : strconv.ParseInt "42" 0 = (42, None).
Proof. reflexivity. Qed.

Example ParseInt_hex : strconv.ParseInt "0x1F" 0 = (31, None).
Proof. reflexivity. Qed.

Example ParseInt_neg : strconv.ParseInt "-0b1_01" 0 = (-5, None).
Proof. reflexivity. Qed.

Example ParseInt_bad : strconv.ParseInt "12a" 0 = (0, Some strconv.ErrSyntax).
Proof. reflexivity. Qed.

Example ParseInt_big :
  strconv.ParseInt "99999999999999999999" 0
  = (9223372036854775807, Some strconv.ErrRange).
Proof. reflexivity. Qed.

Example Atoi_16 : strconv.Atoi "16" = (16, None).
Proof. reflexivity. Qed.

(** ** Compiler state and effects *)

(** What the compiler prints on standard output, one constructor per
    format string of the source. *)
Inductive Msg : Set :=
| RegisterOutOfBounds (input : string)
    (* "Register out of bounds: #%s\n" *)
| UnhandledToken (t : Token)
    (* "Unhandled token: " curToken *)
| UndefinedLabel (name : string)
    (* "Possible use of undefined label '%s'\n" *)
| TrapFail
    (* "Fail!" *)
| InvalidStore (t : Token)
    (* "ERROR: Invalid thing to store: %v\n" *)
| ExpectedNext (expected got : TokenType).
    (* "expected next token to be %s, got %s instead" *)

(** The [Compiler] struct.  The lexer is the list of the tokens it has yet
    to produce; [stdout] is not a field of the Go struct: it is the text
    printed so far. *)
Record Compiler : Type := mkCompiler {
  l : list Token;
  curToken : Token;
  peekToken : Token;
  bytecode : list Z;
  labels : gmap string Z;
  fixups : gmap Z string;
  stdout : list Msg
}.

(** How a method call ends: it returns, the process exits ([os.Exit]), or
    the goroutine panics.  [OutOfFuel] is the model's own: a loop was cut
    short ([Compile_never_OutOfFuel] shows that it never is). *)
Inductive outcome (A : Type) : Type :=
| Ok (a : A) (p : Compiler)
| Exit (code : Z) (out : list Msg)
| Panic (out : list Msg)
| OutOfFuel.

Arguments Ok {A} a p.
Arguments Exit {A} code out.
Arguments Panic {A} out.
Arguments OutOfFuel {A}.

Definition M (A : Type) : Type := Compiler -> outcome A.

Definition ret {A} (a : A) : M A := fun p => Ok a p.

Definition bind {A B} (m : M A) (f : A -> M B) : M B := fun p =>
  match m p with
  | Ok a p' => f a p'
  | Exit c o => Exit c o
  | Panic o => Panic o
  | OutOfFuel => OutOfFuel
  end.

Declare Scope M_scope.
Delimit Scope M_scope with M.
Notation "x ← y ; z" := (bind y (fun x => z)) : M_scope.
Notation "x ;; z" := (bind x (fun _ => z)) : M_scope.
Open Scope M_scope.

Definition gets {A} (f : Compiler -> A) : M A := fun p => Ok (f p) p.

Definition modify (f : Compiler -> Compiler) : M unit := fun p => Ok tt (f p).

Definition os_Exit (code : Z) : M unit := fun p => Exit code (stdout p).

Definition panic {A} : M A := fun p => Panic (stdout p).

(** The state changes of the compiler, as functions on the record. *)

Definition print (m : Msg) (p : Compiler) : Compiler :=
  mkCompiler (l p) (curToken p) (peekToken p) (bytecode p) (labels p)
    (fixups p) (stdout p ++ [m]).

Definition emit (b : Z) (p : Compiler) : Compiler :=
  mkCompiler (l p) (curToken p) (peekToken p) (bytecode p ++ [b]) (labels p)
    (fixups p) (stdout p).

Definition set_label (name : string) (p : Compiler) : Compiler :=
  mkCompiler (l p) (curToken p) (peekToken p) (bytecode p)
    (<[name := Z.of_nat (length (bytecode p))]> (labels p))
    (fixups p) (stdout p).

Definition set_fixup (name : string) (p : Compiler) : Compiler :=
  mkCompiler (l p) (curToken p) (peekToken p) (bytecode p) (labels p)
    (<[Z.of_nat (length (bytecode p)) := name]> (fixups p)) (stdout p).

Definition poke_byte (addr : Z) (b : Z) (p : Compiler) : Compiler :=
  mkCompiler (l p) (curToken p) (peekToken p)
    (<[Z.to_nat addr := b]> (bytecode p)) (labels p) (fixups p) (stdout p).

(** [l.NextToken()]: the next token of the lexer, end-of-stream for ever
    once the input is used up. *)
Definition NextToken (ts : list Token) : Token * list Token :=
  match ts with
  | [] => (token.mk token.EOF "", [])
  | t :: r => (t, r)
  end.

Definition advance (p : Compiler) : Compiler :=
  mkCompiler (snd (NextToken (l p))) (peekToken p) (fst (NextToken (l p)))
    (bytecode p) (labels p) (fixups p) (stdout p).

(** [fmt.Printf]. *)
Definition Printf (m : Msg) : M unit := modify (print m).

(** [p.bytecode = append(p.bytecode, b)]. *)
Definition append (b : Z) : M unit := modify (emit b).

(** [p.bytecode[addr] = b]; an index out of range panics. *)
Definition store_byte (addr : Z) (b : Z) : M unit := fun p =>
  if (0 <=? addr) && (addr <? Z.of_nat (length (bytecode p)))
  then Ok tt (poke_byte addr b p)
  else Panic (stdout p).

(** [nextToken] gets the next token from the lexer-stream. *)
Definition nextToken : M unit := modify advance.

(** [New]: both token slots are filled from the lexer; the zero token the
    struct starts with is gone after the two calls. *)
Definition New (ts : list Token) : Compiler :=
  advance (advance (mkCompiler ts (token.mk token.EOF "") (token.mk token.EOF "")
                      [] ∅ ∅ [])).

Definition isRegister (input : string) : bool :=
  if HasPrefix input "#" then true else false.

(** [getRegister] converts a register string "#2" to the integer 2. *)
Definition getRegister (input : string) : M Z :=
  let num := TrimPrefix input "#" in
  match strconv.Atoi num with
  | (_, Some _) => panic
  | (i, None) =>
      if (0 <=? i) && (i <=? 15) then ret (byte i)
      else Printf (RegisterOutOfBounds input);; os_Exit 1;; ret 0
  end.

Definition curTokenIs (t : TokenType) : M bool :=
  gets (fun p => bool_decide (token.Type_ (curToken p) = t)).

Definition peekTokenIs (t : TokenType) : M bool :=
  gets (fun p => bool_decide (token.Type_ (peekToken p) = t)).

Definition peekError (t : TokenType) : M unit :=
  got ← gets (fun p => token.Type_ (curToken p));
  Printf (ExpectedNext t got);;
  os_Exit 1.

(** [expectPeek]: the next token is [t]: advance and return true;
    otherwise report the error. *)
Definition expectPeek (t : TokenType) : M bool :=
  b ← peekTokenIs t;
  if b then nextToken;; ret true
  else peekError t;; ret false.

Definition curType : M TokenType := gets (fun p => token.Type_ (curToken p)).

Definition curLiteral : M string := gets (fun p => token.Literal (curToken p)).

(** [for i := 0; i < len; i++ { append(byte(Literal[i])) }]. *)
Fixpoint append_all (bs : list Z) : M unit :=
  match bs with
  | [] => ret tt
  | b :: r => append b;; append_all r
  end.

Definition out_of_fuel {A} : M A := fun _ => OutOfFuel.

(** ** The statement encoders *)

Section Encoders.

Variable op : opcode.table.

(** [nopOp] does nothing. *)
Definition nopOp : M unit := append (byte (opcode.NOP_OP op)).

(** [peekOp] reads the contents of a memory address into a register. *)
Definition peekOp : M unit :=
  ok ← expectPeek token.IDENT;
  if negb ok then ret tt else
  lit ← curLiteral;
  res ← getRegister lit;
  ok ← expectPeek token.COMMA;
  if negb ok then ret tt else
  nextToken;;
  ty ← curType;
  if negb (bool_decide (ty = token.IDENT)) then ret tt else
  lit ← curLiteral;
  addr ← getRegister lit;
  append (byte (opcode.PEEK op));;
  append (byte res);;
  append (byte addr).

(** [pokeOp] writes to memory. *)
Definition pokeOp : M unit :=
  ok ← expectPeek token.IDENT;
  if negb ok then ret tt else
  lit ← curLiteral;
  val ← getRegister lit;
  ok ← expectPeek token.COMMA;
  if negb ok then ret tt else
  nextToken;;
  ty ← curType;
  if negb (bool_decide (ty = token.IDENT)) then ret tt else
  lit ← curLiteral;
  addr ← getRegister lit;
  append (byte (opcode.POKE op));;
  append (byte val);;
  append (byte addr).

Definition pushOp : M unit :=
  ok ← expectPeek token.IDENT;
  if negb ok then ret tt else
  lit ← curLiteral;
  reg ← getRegister lit;
  append (byte (opcode.STACK_PUSH op));;
  append (byte reg).

Definition popOp : M unit :=
  ok ← expectPeek token.IDENT;
  if negb ok then ret tt else
  lit ← curLiteral;
  reg ← getRegister lit;
  append (byte (opcode.STACK_POP op));;
  append (byte reg).

(** [exitOp] terminates the interpreter. *)
Definition exitOp : M unit := append (byte (opcode.EXIT op)).

Definition incOp : M unit :=
  ok ← expectPeek token.IDENT;
  if negb ok then ret tt else
  lit ← curLiteral;
  reg ← getRegister lit;
  append (byte (opcode.INC_OP op));;
  append (byte reg).

Definition decOp : M unit :=
  ok ← expectPeek token.IDENT;
  if negb ok then ret tt else
  lit ← curLiteral;
  reg ← getRegister lit;
  append (byte (opcode.DEC_OP op));;
  append (byte reg).

Definition randOp : M unit :=
  ok ← expectPeek token.IDENT;
  if negb ok then ret tt else
  lit ← curLiteral;
  reg ← getRegister lit;
  append (byte (opcode.INT_RANDOM op));;
  append (byte reg).

(** [retOp] returns from a call. *)
Definition retOp : M unit := append (byte (opcode.STACK_RET op)).

Definition isStrOp : M unit :=
  ok ← expectPeek token.IDENT;
  if negb ok then ret tt else
  lit ← curLiteral;
  reg ← getRegister lit;
  append (byte (opcode.IS_STRING op));;
  append (byte reg).

Definition str2IntOp : M unit :=
  ok ← expectPeek token.IDENT;
  if negb ok then ret tt else
  lit ← curLiteral;
  reg ← getRegister lit;
  append (byte (opcode.STRING_TOINT op));;
  append (byte reg).

Definition int2StrOp : M unit :=
  ok ← expectPeek token.IDENT;
  if negb ok then ret tt else
  lit ← curLiteral;
  reg ← getRegister lit;
  append (byte (opcode.INT_TOSTRING op));;
  append (byte reg).

Definition systemOp : M unit :=
  ok ← expectPeek token.IDENT;
  if negb ok then ret tt else
  lit ← curLiteral;
  reg ← getRegister lit;
  append (byte (opcode.STRING_SYSTEM op));;
  append (byte reg).

Definition isIntOp : M unit :=
  ok ← expectPeek token.IDENT;
  if negb ok then ret tt else
  lit ← curLiteral;
  reg ← getRegister lit;
  append (byte (opcode.IS_INTEGER op));;
  append (byte reg).

(** [callOp] generates a call instruction: the target is an absolute
    address or a label. *)
Definition callOp : M unit :=
  append (byte (opcode.STACK_CALL op));;
  nextToken;;
  ty ← curType;
  match ty with
  | token.INT =>
      lit ← curLiteral;
      let addr := fst (strconv.ParseInt lit 0) in
      let len1 := Z.rem addr 256 in
      let len2 := Z.quot (addr - len1) 256 in
      append (byte len1);;
      append (byte len2)
  | token.IDENT =>
      lit ← curLiteral;
      modify (set_fixup lit);;
      append (byte 0);;
      append (byte 0)
  | _ => ret tt
  end.

(** [trapOp] inserts an interrupt call. *)
Definition trapOp : M unit :=
  nextToken;;
  ty ← curType;
  match ty with
  | token.INT =>
      lit ← curLiteral;
      let addr := fst (strconv.ParseInt lit 0) in
      let len1 := Z.rem addr 256 in
      let len2 := Z.quot (addr - len1) 256 in
      append (byte (opcode.TRAP_OP op));;
      append (byte len1);;
      append (byte len2)
  | _ => Printf TrapFail
  end.

(** [jumpOp] inserts a direct jump. *)
Definition jumpOp (operator : Z) : M unit :=
  append (byte operator);;
  nextToken;;
  ty ← curType;
  match ty with
  | token.INT =>
      lit ← curLiteral;
      let addr := fst (strconv.ParseInt lit 0) in
      let len1 := Z.rem addr 256 in
      let len2 := Z.quot (addr - len1) 256 in
      append (byte len1);;
      append (byte len2)
  | token.IDENT =>
      lit ← curLiteral;
      modify (set_fixup lit);;
      append (byte 0);;
      append (byte 0)
  | _ => ret tt
  end.

(** [memcpyOp] inserts a memcopy operation. *)
Definition memcpyOp : M unit :=
  nextToken;;
  lit ← curLiteral;
  one ← getRegister lit;
  ok ← expectPeek token.COMMA;
  if negb ok then ret tt else
  nextToken;;
  lit ← curLiteral;
  two ← getRegister lit;
  ok ← expectPeek token.COMMA;
  if negb ok then ret tt else
  nextToken;;
  lit ← curLiteral;
  three ← getRegister lit;
  append (byte (opcode.MEMCPY op));;
  append (byte one);;
  append (byte two);;
  append (byte three).

(** [mathOperation] handles add/sub/mul/div/etc. *)
Definition mathOperation (operation : Z) : M unit :=
  ok ← expectPeek token.IDENT;
  if negb ok then ret tt else
  lit ← curLiteral;
  dst ← getRegister lit;
  ok ← expectPeek token.COMMA;
  if negb ok then ret tt else
  nextToken;;
  ty ← curType;
  if negb (bool_decide (ty = token.IDENT)) then ret tt else
  lit ← curLiteral;
  src1 ← getRegister lit;
  ok ← expectPeek token.COMMA;
  if negb ok then ret tt else
  nextToken;;
  ty ← curType;
  if negb (bool_decide (ty = token.IDENT)) then ret tt else
  lit ← curLiteral;
  src2 ← getRegister lit;
  append (byte operation);;
  append (byte dst);;
  append (byte src1);;
  append (byte src2).

(** [storeOp] handles loading a register with a string, integer,
    register, or label-address. *)
Definition storeOp : M unit :=
  ok ← expectPeek token.IDENT;
  if negb ok then ret tt else
  lit ← curLiteral;
  reg ← getRegister lit;
  ok ← expectPeek token.COMMA;
  if negb ok then ret tt else
  nextToken;;
  ty ← curType;
  match ty with
  | token.STRING =>
      append (byte (opcode.STRING_STORE op));;
      append reg;;
      lit ← curLiteral;
      let len := Z.of_nat (String.length lit) in
      let len1 := Z.rem len 256 in
      let len2 := Z.quot (len - len1) 256 in
      append (byte len1);;
      append (byte len2);;
      append_all (bytes_of_string lit)
  | token.INT =>
      append (byte (opcode.INT_STORE op));;
      append reg;;
      lit ← curLiteral;
      let i := fst (strconv.ParseInt lit 0) in
      let len1 := Z.rem i 256 in
      let len2 := Z.quot (i - len1) 256 in
      append (byte len1);;
      append (byte len2)
  | token.IDENT =>
      lit ← curLiteral;
      if isRegister lit then
        append (byte (opcode.REG_STORE op));;
        append reg;;
        src ← getRegister lit;
        append src
      else
        append (byte (opcode.INT_STORE op));;
        append reg;;
        modify (set_fixup lit);;
        append (byte 0);;
        append (byte 0)
  | _ =>
      tok ← gets curToken;
      Printf (InvalidStore tok);;
      os_Exit 1
  end.

(** [cmpOp] handles comparing a register with a string, integer,
    register, or label-address. *)
Definition cmpOp : M unit :=
  ok ← expectPeek token.IDENT;
  if negb ok then ret tt else
  lit ← curLiteral;
  reg ← getRegister lit;
  ok ← expectPeek token.COMMA;
  if negb ok then ret tt else
  nextToken;;
  ty ← curType;
  match ty with
  | token.STRING =>
      append (byte (opcode.CMP_STRING op));;
      append reg;;
      lit ← curLiteral;
      let len := Z.of_nat (String.length lit) in
      let len1 := Z.rem len 256 in
      let len2 := Z.quot (len - len1) 256 in
      append (byte len1);;
      append (byte len2);;
      append_all (bytes_of_string lit)
  | token.INT =>
      append (byte (opcode.CMP_IMMEDIATE op));;
      append reg;;
      lit ← curLiteral;
      let i := fst (strconv.ParseInt lit 0) in
      let len1 := Z.rem i 256 in
      let len2 := Z.quot (i - len1) 256 in
      append (byte len1);;
      append (byte len2)
  | token.IDENT =>
      lit ← curLiteral;
      if isRegister lit then
        append (byte (opcode.CMP_REG op));;
        append reg;;
        src ← getRegister lit;
        append src
      else
        append (byte (opcode.CMP_IMMEDIATE op));;
        append reg;;
        modify (set_fixup lit);;
        append (byte 0);;
        append (byte 0)
  | _ =>
      tok ← gets curToken;
      Printf (InvalidStore tok);;
      os_Exit 1
  end.

(** [concatOp] concatenates two string values. *)
Definition concatOp : M unit :=
  nextToken;;
  lit ← curLiteral;
  dst ← getRegister lit;
  ok ← expectPeek token.COMMA;
  if negb ok then ret tt else
  nextToken;;
  lit ← curLiteral;
  a ← getRegister lit;
  ok ← expectPeek token.COMMA;
  if negb ok then ret tt else
  nextToken;;
  lit ← curLiteral;
  b ← getRegister lit;
  append (byte (opcode.STRING_CONCAT op));;
  append (byte dst);;
  append (byte a);;
  append (byte b).

(** The loop of [dataOp]: more integers for as long as a comma follows.
    Every round reads two tokens, so the number of tokens left in the
    lexer, plus one, is fuel enough. *)
Fixpoint dataOp_loop (fuel : nat) : M unit :=
  more ← peekTokenIs token.COMMA;
  if negb more then ret tt else
  match fuel with
  | O => out_of_fuel
  | S n =>
      nextToken;;
      ok ← expectPeek token.INT;
      (if ok then
         db ← curLiteral;
         let i := fst (strconv.ParseInt db 0) in
         append (byte i)
       else ret tt);;
      dataOp_loop n
  end.

(** [dataOp] embeds literal/binary data into the output. *)
Definition dataOp : M unit :=
  nextToken;;
  ty ← curType;
  if bool_decide (ty = token.STRING) then
    lit ← curLiteral;
    append_all (bytes_of_string lit)
  else
    db ← curLiteral;
    let i := fst (strconv.ParseInt db 0) in
    append (byte i);;
    n ← gets (fun p => S (length (l p)));
    dataOp_loop n.

(** [printInt]: print the contents of a register as an integer. *)
Definition printInt : M unit :=
  ok ← expectPeek token.IDENT;
  if negb ok then ret tt else
  append (byte (opcode.INT_PRINT op));;
  lit ← curLiteral;
  reg ← getRegister lit;
  append reg.

(** [printString]: print the contents of a register as a string. *)
Definition printString : M unit :=
  ok ← expectPeek token.IDENT;
  if negb ok then ret tt else
  append (byte (opcode.STRING_PRINT op));;
  lit ← curLiteral;
  reg ← getRegister lit;
  append reg.

(** ** Compile *)

(** The [switch] of [Compile] on the kind of the current token. *)
Definition Compile_switch : M unit :=
  tok ← gets curToken;
  match token.Type_ tok with
  | token.LABEL =>
      let label := TrimPrefix (token.Literal tok) ":" in
      modify (set_label label)
  | token.EXIT => exitOp
  | token.INC => incOp
  | token.DEC => decOp
  | token.RANDOM => randOp
  | token.RET => retOp
  | token.CALL => callOp
  | token.IS_INTEGER => isIntOp
  | token.IS_STRING => isStrOp
  | token.STRING2INT => str2IntOp
  | token.INT2STRING => int2StrOp
  | token.SYSTEM => systemOp
  | token.CMP => cmpOp
  | token.CONCAT => concatOp
  | token.DB => dataOp
  | token.DATA => dataOp
  | token.GOTO => jumpOp (opcode.JUMP_TO op)
  | token.TRAP => trapOp
  | token.JMP => jumpOp (opcode.JUMP_TO op)
  | token.JMPZ => jumpOp (opcode.JUMP_Z op)
  | token.JMPNZ => jumpOp (opcode.JUMP_NZ op)
  | token.MEMCPY => memcpyOp
  | token.NOP => nopOp
  | token.PEEK => peekOp
  | token.POKE => pokeOp
  | token.PUSH => pushOp
  | token.POP => popOp
  | token.STORE => storeOp
  | token.PRINT_INT => printInt
  | token.PRINT_STR => printString
  | token.ADD => mathOperation (opcode.ADD_OP op)
  | token.XOR => mathOperation (opcode.XOR_OP op)
  | token.SUB => mathOperation (opcode.SUB_OP op)
  | token.MUL => mathOperation (opcode.MUL_OP op)
  | token.DIV => mathOperation (opcode.DIV_OP op)
  | token.AND => mathOperation (opcode.AND_OP op)
  | token.OR => mathOperation (opcode.OR_OP op)
  | _ => Printf (UnhandledToken tok)
  end.

(** The first loop of [Compile]: one statement per round, until the
    current token is the end of the stream. *)
Fixpoint Compile_loop (fuel : nat) : M unit :=
  eof ← curTokenIs token.EOF;
  if eof then ret tt else
  match fuel with
  | O => out_of_fuel
  | S n => Compile_switch;; nextToken;; Compile_loop n
  end.

(** The number of rounds the first loop can take: every round reads at
    least one token. *)
Definition rounds (p : Compiler) : nat := (length (l p) + 2)%nat.

Definition Compile_scan : M unit :=
  n ← gets rounds;
  Compile_loop n.

(** The body of the second loop of [Compile]: patch one reference. *)
Definition fixup (addr : Z) (name : string) : M unit :=
  value ← gets (fun p => default 0 (labels p !! name));
  (if value =? 0 then Printf (UndefinedLabel name) else ret tt);;
  let p1 := Z.rem value 256 in
  let p2 := Z.quot (value - p1) 256 in
  store_byte addr (byte p1);;
  store_byte (addr + 1) (byte p2).

(** [for addr, name := range p.fixups], the entries taken in [order]. *)
Fixpoint Compile_fixups (order : list (Z * string)) : M unit :=
  match order with
  | [] => ret tt
  | (addr, name) :: rest => fixup addr name;; Compile_fixups rest
  end.

(** [Compile] processes the stream of tokens from the lexer and builds up
    the bytecode program.  Go leaves the order of a [range] over a map
    open; the model takes the entries in the order of [map_to_list]
    ([Compile_fixups_order] shows that the bytecode is the same for
    every order). *)
Definition Compile : M unit :=
  Compile_scan;;
  order ← gets (fun p => map_to_list (fixups p));
  Compile_fixups order.

(** [Output] returns the bytecodes of the compiled program. *)
Definition Output (p : Compiler) : list Z := bytecode p.

(** A whole run, as the callers of the package make it: [New], [Compile],
    [Output].  The bytecode, or nothing when the run did not return. *)
Definition run (ts : list Token) : option (list Z) :=
  match Compile (New ts) with
  | Ok _ p => Some (Output p)
  | _ => None
  end.

End Encoders.

(** A numbering of the opcodes to run the model on concrete programs; the
    theorems hold for every numbering. *)
Definition sample_opcodes : opcode.table :=
  opcode.mk 0 1 2 3 4 16 17 18 32 33 34 35 36 37 38 39 40 48 49 50 51 52
    64 65 66 67 68 80 81 96 97 98 112 113 114 115 128.

Definition tk (t : TokenType) (s : string) : Token := token.mk t s.

Example run_forward :
  run sample_opcodes
    [tk token.JMP "jmp"; tk token.IDENT "target"; tk token.LABEL ":target";
     tk token.EXIT "exit"] = Some [16; 3; 0; 0].
Proof. vm_compute. reflexivity. Qed.

Example run_store_string :
  run sample_opcodes
    [tk token.STORE "store"; tk token.IDENT "#1"; tk token.COMMA ",";
     tk token.STRING "AB"] = Some [48; 1; 2; 0; 65; 66].
Proof. vm_compute. reflexivity. Qed.

Example run_db :
  run sample_opcodes
    [tk token.DB "db"; tk token.INT "1"; tk token.COMMA ",";
     tk token.INT "2"; tk token.COMMA ","; tk token.INT "3"] = Some [1; 2; 3].
Proof. vm_compute. reflexivity. Qed.

(** * Properties *)

(** ** Running a computation *)

Lemma bind_Ok {A B} (m : M A) (f : A -> M B) p b p' :
  bind m f p = Ok b p' -> exists a p1, m p = Ok a p1 /\ f a p1 = Ok b p'.
Proof.
  unfold bind. destruct (m p) as [a p1| | |]; try discriminate. eauto.
Qed.

Lemma ret_Ok {A} (a b : A) p p' : ret a p = Ok b p' -> b = a /\ p' = p.
Proof. unfold ret. intros H. inversion H. auto. Qed.

Lemma gets_Ok {A} (f : Compiler -> A) a p p' :
  gets f p = Ok a p' -> a = f p /\ p' = p.
Proof. unfold gets. intros H. inversion H. auto. Qed.

Lemma modify_Ok (f : Compiler -> Compiler) a p p' :
  modify f p = Ok a p' -> p' = f p.
Proof. unfold modify. intros H. inversion H. auto. Qed.

Lemma os_Exit_Ok c a p p' : os_Exit c p = Ok a p' -> False.
Proof. discriminate. Qed.

Lemma expectPeek_Ok t b p p' :
  expectPeek t p = Ok b p' ->
  b = true /\ p' = advance p /\ token.Type_ (peekToken p) = t.
Proof.
  unfold expectPeek, peekTokenIs, peekError, bind, gets, nextToken, modify,
    Printf, os_Exit, ret.
  case_bool_decide; intros E; inversion E; auto.
Qed.

Lemma getRegister_Ok s r p p' :
  getRegister s p = Ok r p' -> p' = p /\ 0 <= r <= 15.
Proof.
  unfold getRegister, panic, bind, Printf, modify, os_Exit, ret, byte.
  destruct (strconv.Atoi _) as [i [e|]]; [discriminate|].
  destruct ((0 <=? i) && (i <=? 15)) eqn:E; intros H; inversion H; subst.
  apply andb_true_iff in E as [E1 E2].
  apply Z.leb_le in E1, E2. rewrite Z.mod_small by lia. auto with lia.
Qed.

(** The bytes [append_all] appends. *)
Definition emit_all (bs : list Z) (p : Compiler) : Compiler :=
  mkCompiler (l p) (curToken p) (peekToken p) (bytecode p ++ bs) (labels p)
    (fixups p) (stdout p).

Lemma emit_all_nil p : emit_all [] p = p.
Proof. destruct p. unfold emit_all. simpl. by rewrite app_nil_r. Qed.

Lemma append_all_run bs p : append_all bs p = Ok tt (emit_all bs p).
Proof.
  revert p. induction bs as [|b bs IH]; intros p; simpl.
  - by rewrite emit_all_nil.
  - unfold bind, append, modify. rewrite IH. f_equal.
    unfold emit_all, emit. simpl. by rewrite <- app_assoc.
Qed.

Lemma append_all_Ok bs a p p' :
  append_all bs p = Ok a p' -> p' = emit_all bs p.
Proof. rewrite append_all_run. intros H. by inversion H. Qed.

(** Symbolic execution of a run that returned: split the binds, replace
    every primitive by its effect on the state. *)
Ltac run1 :=
  match goal with
  | H : bind _ _ _ = Ok _ _ |- _ =>
      let a := fresh "a" in
      let q := fresh "q" in
      let R1 := fresh "R" in
      let R2 := fresh "R" in
      apply bind_Ok in H; destruct H as (a & q & R1 & R2)
  | H : ret _ _ = Ok _ _ |- _ => apply ret_Ok in H; destruct H; subst
  | H : gets _ _ = Ok _ _ |- _ => apply gets_Ok in H; destruct H; subst
  | H : curType _ = Ok _ _ |- _ => apply gets_Ok in H; destruct H; subst
  | H : curLiteral _ = Ok _ _ |- _ => apply gets_Ok in H; destruct H; subst
  | H : curTokenIs _ _ = Ok _ _ |- _ => apply gets_Ok in H; destruct H; subst
  | H : peekTokenIs _ _ = Ok _ _ |- _ => apply gets_Ok in H; destruct H; subst
  | H : modify _ _ = Ok _ _ |- _ => apply modify_Ok in H; subst
  | H : append _ _ = Ok _ _ |- _ => apply modify_Ok in H; subst
  | H : Printf _ _ = Ok _ _ |- _ => apply modify_Ok in H; subst
  | H : nextToken _ = Ok _ _ |- _ => apply modify_Ok in H; subst
  | H : append_all _ _ = Ok _ _ |- _ => apply append_all_Ok in H; subst
  | H : os_Exit _ _ = Ok _ _ |- _ => discriminate H
  | H : expectPeek _ _ = Ok _ _ |- _ =>
      apply expectPeek_Ok in H; destruct H as (? & ? & ?); subst
  | H : getRegister _ _ = Ok _ _ |- _ =>
      apply getRegister_Ok in H; destruct H as (? & ?); subst
  | H : (if negb true then _ else _) _ = Ok _ _ |- _ => cbn [negb] in H
  | H : (if ?b then _ else _) _ = Ok _ _ |- _ => destruct b eqn:?
  | H : (match ?t with token.EOF => _ | _ => _ end) _ = Ok _ _ |- _ =>
      destruct t eqn:?
  end.

Ltac run := repeat run1.

(** ** Weight: the tokens that are left *)

Definition live (t : Token) : nat :=
  if bool_decide (token.Type_ t = token.EOF) then 0%nat else 1%nat.

Definition weight (p : Compiler) : nat :=
  (length (l p) + live (peekToken p) + live (curToken p))%nat.

Lemma live_le t : (live t <= 1)%nat.
Proof. unfold live. case_bool_decide; lia. Qed.

Lemma advance_weight p : (weight (advance p) <= weight p)%nat.
Proof.
  unfold weight, advance. simpl. destruct (l p) as [|t r]; simpl.
  - change (live (token.mk token.EOF "")) with 0%nat. lia.
  - pose proof (live_le t). lia.
Qed.

Lemma advance_weight_lt p :
  token.Type_ (curToken p) <> token.EOF ->
  (weight (advance p) < weight p)%nat.
Proof.
  intros Hc. unfold weight, advance. simpl.
  assert (live (curToken p) = 1%nat) as ->
    by (unfold live; case_bool_decide; congruence).
  destruct (l p) as [|t r]; simpl.
  - change (live (token.mk token.EOF "")) with 0%nat. lia.
  - pose proof (live_le t). lia.
Qed.

Lemma advance_length p : (length (l (advance p)) <= length (l p))%nat.
Proof. unfold advance. simpl. destruct (l p); simpl; lia. Qed.

(** ** What a statement does to the state *)

(** One statement leaves the labels alone, appends bytes, and registers at
    most one reference, two bytes at least before the end of the buffer. *)
Record step (p p' : Compiler) : Prop := mkStep {
  step_weight : (weight p' <= weight p)%nat;
  step_labels : labels p' = labels p;
  step_code : exists bs, bytecode p' = bytecode p ++ bs /\
    (fixups p' = fixups p \/
     exists k name, (k + 2 <= length bs)%nat /\
       fixups p' = <[Z.of_nat (length (bytecode p) + k) := name]> (fixups p))
}.

Lemma weight_emit b p : weight (emit b p) = weight p.
Proof. reflexivity. Qed.
Lemma weight_emit_all b p : weight (emit_all b p) = weight p.
Proof. reflexivity. Qed.
Lemma weight_print m p : weight (print m p) = weight p.
Proof. reflexivity. Qed.
Lemma weight_set_fixup n p : weight (set_fixup n p) = weight p.
Proof. reflexivity. Qed.

Lemma advance_weight_trans p n :
  (weight p <= n)%nat -> (weight (advance p) <= n)%nat.
Proof. pose proof (advance_weight p). lia. Qed.

Ltac weigh :=
  repeat first
    [ rewrite weight_emit | rewrite weight_emit_all | rewrite weight_print
    | rewrite weight_set_fixup ];
  repeat apply advance_weight_trans; reflexivity.

Lemma advance_weight_lt_trans p n :
  (weight p < n)%nat -> (weight (advance p) < n)%nat.
Proof. pose proof (advance_weight p). lia. Qed.

Lemma weight_set_label n p : weight (set_label n p) = weight p.
Proof. reflexivity. Qed.
Lemma advance_emit b p : advance (emit b p) = emit b (advance p).
Proof. reflexivity. Qed.
Lemma advance_emit_all b p : advance (emit_all b p) = emit_all b (advance p).
Proof. reflexivity. Qed.
Lemma advance_print m p : advance (print m p) = print m (advance p).
Proof. reflexivity. Qed.
Lemma advance_set_fixup n p :
  advance (set_fixup n p) = set_fixup n (advance p).
Proof. reflexivity. Qed.
Lemma advance_set_label n p :
  advance (set_label n p) = set_label n (advance p).
Proof. reflexivity. Qed.

Ltac progressed :=
  repeat first
    [ rewrite weight_emit | rewrite weight_emit_all | rewrite weight_print
    | rewrite weight_set_fixup | rewrite weight_set_label
    | rewrite advance_emit | rewrite advance_emit_all | rewrite advance_print
    | rewrite advance_set_fixup | rewrite advance_set_label ];
  repeat first
    [ assumption | apply advance_weight_lt_trans ].

Ltac fields :=
  cbn [bytecode fixups labels emit emit_all set_fixup print advance].

Ltac code :=
  fields;
  first
    [ exists []; split; [by rewrite app_nil_r | left; reflexivity]
    | rewrite <- ?app_assoc; eexists; split; [reflexivity|];
      first
        [ left; reflexivity
        | right; eexists _, _;
          split; [| rewrite length_app; reflexivity]; simpl; lia ] ].

Ltac stepped := split; [weigh | fields; reflexivity | code].

(** A run of statements that registers no reference. *)
Record appends (p p' : Compiler) : Prop := mkAppends {
  appends_weight : (weight p' <= weight p)%nat;
  appends_labels : labels p' = labels p;
  appends_fixups : fixups p' = fixups p;
  appends_code : exists bs, bytecode p' = bytecode p ++ bs
}.

Lemma appends_refl p : appends p p.
Proof. split; auto. exists []. by rewrite app_nil_r. Qed.

Lemma appends_trans p q r : appends p q -> appends q r -> appends p r.
Proof.
  intros [W1 L1 F1 [b1 C1]] [W2 L2 F2 [b2 C2]].
  split; [lia | congruence | congruence |].
  exists (b1 ++ b2). by rewrite C2, C1, app_assoc.
Qed.

Lemma appends_step p p' : appends p p' -> step p p'.
Proof. intros [W L F [bs C]]. split; auto. exists bs. auto. Qed.

Ltac appended :=
  split; [weigh | fields; reflexivity | fields; reflexivity
         | fields;
           first [ exists []; by rewrite app_nil_r
                 | rewrite <- ?app_assoc; eauto ] ].

(** ** No loop of the model is cut short *)

Definition total {A} (m : M A) : Prop := forall p, m p <> OutOfFuel.

Lemma bind_fuel {A B} (m : M A) (f : A -> M B) p :
  m p <> OutOfFuel ->
  (forall a p1, m p = Ok a p1 -> f a p1 <> OutOfFuel) ->
  bind m f p <> OutOfFuel.
Proof.
  unfold bind. intros Hm Hf. destruct (m p) as [a p1| | |]; try done.
  by apply Hf.
Qed.

Lemma total_bind {A B} (m : M A) (f : A -> M B) :
  total m -> (forall a, total (f a)) -> total (bind m f).
Proof. intros Hm Hf p. apply bind_fuel; auto. intros a p1 _. apply Hf. Qed.

Lemma total_ret {A} (a : A) : total (ret a).
Proof. done. Qed.

Lemma total_gets {A} (f : Compiler -> A) : total (gets f).
Proof. done. Qed.

Lemma total_modify f : total (modify f).
Proof. done. Qed.

Lemma total_os_Exit c : total (os_Exit c).
Proof. done. Qed.

Lemma total_panic {A} : total (@panic A).
Proof. done. Qed.

Lemma total_append_all bs : total (append_all bs).
Proof. intros p. by rewrite append_all_run. Qed.

Lemma total_if {A} (b : bool) (m1 m2 : M A) :
  total m1 -> total m2 -> total (if b then m1 else m2).
Proof. by destruct b. Qed.

Create HintDb total discriminated.

#[global] Hint Resolve total_ret total_gets total_modify total_os_Exit
  total_panic total_append_all : total.

Ltac totality :=
  repeat first
    [ progress intros
    | solve [auto with total]
    | apply total_bind
    | apply total_if
    | match goal with
      | |- total (match ?t with token.EOF => _ | _ => _ end) => destruct t
      | |- total (match ?t with (_, _) => _ end) => destruct t
      | |- total (match ?t with Some _ => _ | None => _ end) => destruct t
      end ].

Lemma total_Printf m : total (Printf m).
Proof. done. Qed.

Lemma total_append b : total (append b).
Proof. done. Qed.

Lemma total_nextToken : total nextToken.
Proof. done. Qed.

Lemma total_curType : total curType.
Proof. done. Qed.

Lemma total_curLiteral : total curLiteral.
Proof. done. Qed.

Lemma total_curTokenIs t : total (curTokenIs t).
Proof. done. Qed.

Lemma total_peekTokenIs t : total (peekTokenIs t).
Proof. done. Qed.

#[global] Hint Resolve total_Printf total_append total_nextToken
  total_curType total_curLiteral total_curTokenIs total_peekTokenIs : total.

Lemma total_getRegister s : total (getRegister s).
Proof. unfold getRegister. totality. Qed.

Lemma total_expectPeek t : total (expectPeek t).
Proof. unfold expectPeek, peekTokenIs, peekError. totality. Qed.

#[global] Hint Resolve total_getRegister total_expectPeek : total.

Section Statements.

Variable op : opcode.table.

(** *** The data loop *)

Lemma dataOp_loop_appends n p a p' :
  dataOp_loop n p = Ok a p' -> appends p p'.
Proof.
  revert p. induction n as [|n IH]; intros p H; simpl in H.
  - run; try discriminate. appended.
  - run; try appended.
    match goal with
    | R : dataOp_loop n _ = Ok _ _ |- _ => apply IH in R
    end.
    eapply appends_trans; [|eassumption]. appended.
Qed.

Lemma dataOp_appends p a p' : dataOp p = Ok a p' -> appends p p'.
Proof.
  unfold dataOp. intros H. run; try appended.
  match goal with
  | R : dataOp_loop _ _ = Ok _ _ |- _ => apply dataOp_loop_appends in R
  end.
  eapply appends_trans; [|eassumption]. appended.
Qed.

(** A comma that starts a round is followed by an integer, so the lexer
    is one token shorter after every round that returns. *)
Lemma dataOp_loop_fuel n p :
  (length (l p) < n)%nat -> dataOp_loop n p <> OutOfFuel.
Proof.
  revert p. induction n as [|n IH]; intros p Hn; [lia|].
  simpl. apply bind_fuel; [done|]. intros ? ? H. run.
  destruct (negb _); [done|].
  apply bind_fuel; [done|]. intros ? ? H. run.
  apply bind_fuel; [apply total_expectPeek|]. intros ? ? H. run.
  apply bind_fuel; [apply bind_fuel; [done|]; done|].
  intros ? ? H. run. apply IH.
  cbn [l emit].
  match goal with
  | E : token.Type_ (peekToken (advance p)) = token.INT |- _ =>
      unfold advance in E; cbn [peekToken] in E
  end.
  unfold advance. cbn [l].
  destruct (l p) as [|t [|t' r]]; simpl in *; try discriminate; lia.
Qed.

Lemma dataOp_fuel : total dataOp.
Proof.
  intros p. unfold dataOp.
  apply bind_fuel; [done|]. intros ? ? H. run.
  apply bind_fuel; [done|]. intros ? ? H. run.
  case_bool_decide.
  - apply total_bind; totality.
  - apply bind_fuel; [done|]. intros ? ? H1. run.
    apply bind_fuel; [done|]. intros ? ? H1. run.
    apply bind_fuel; [done|]. intros ? ? H1. run.
    apply dataOp_loop_fuel. cbn [l emit]. lia.
Qed.

(** *** Every statement *)

Lemma Compile_switch_fuel : total (Compile_switch op).
Proof.
  unfold Compile_switch. apply total_bind; [done|]. intros tok.
  destruct (token.Type_ tok); try apply dataOp_fuel;
    unfold exitOp, incOp, decOp, randOp, retOp, callOp, isIntOp, isStrOp,
      str2IntOp, int2StrOp, systemOp, cmpOp, concatOp, jumpOp, trapOp,
      memcpyOp, nopOp, peekOp, pokeOp, pushOp, popOp, storeOp, printInt,
      printString, mathOperation;
    totality.
Qed.

Lemma Compile_switch_step p a p' :
  Compile_switch op p = Ok a p' ->
  step p p' \/
  (token.Type_ (curToken p) = token.LABEL /\
   p' = set_label (TrimPrefix (token.Literal (curToken p)) ":") p).
Proof.
  unfold Compile_switch. intros H.
  run;
    first
      [ right; split; reflexivity
      | left;
        first
          [ apply appends_step; eapply dataOp_appends; eassumption
          | unfold exitOp, incOp, decOp, randOp, retOp, callOp, isIntOp,
              isStrOp, str2IntOp, int2StrOp, systemOp, cmpOp, concatOp,
              jumpOp, trapOp, memcpyOp, nopOp, peekOp, pokeOp, pushOp,
              popOp, storeOp, printInt, printString, mathOperation in *;
            run; stepped ] ].
Qed.

End Statements.

(** ** Where the references lie *)

(** Every registered reference has its two bytes inside the buffer, and
    two references never share a byte. *)
Record placed (p : Compiler) : Prop := mkPlaced {
  placed_in : forall a n, fixups p !! a = Some n ->
    0 <= a /\ a + 2 <= Z.of_nat (length (bytecode p));
  placed_apart : forall a1 n1 a2 n2,
    fixups p !! a1 = Some n1 -> fixups p !! a2 = Some n2 -> a1 <> a2 ->
    a1 + 2 <= a2 \/ a2 + 2 <= a1
}.

Lemma placed_fields p q :
  bytecode q = bytecode p -> fixups q = fixups p -> placed p -> placed q.
Proof. intros Hb Hf [Hi Ha]. split; rewrite ?Hb, Hf; auto. Qed.

Lemma step_placed p p' : step p p' -> placed p -> placed p'.
Proof.
  intros [_ _ (bs & Hb & Hf)] [Hi Ha].
  destruct Hf as [Hf | (k & name & Hk & Hf)].
  - split; rewrite Hf; [|done].
    intros a n Hn. apply Hi in Hn. rewrite Hb, length_app. lia.
  - split; rewrite Hf.
    + intros a n. rewrite Hb, length_app, lookup_insert.
      case_decide; intros Hn; [lia|]. apply Hi in Hn. lia.
    + intros a1 n1 a2 n2. rewrite !lookup_insert.
      repeat case_decide; intros H1 H2 Hne; subst; try lia.
      * apply Hi in H2. lia.
      * apply Hi in H1. lia.
      * eauto.
Qed.

Lemma New_placed ts : placed (New ts).
Proof. split; cbn; intros *; by rewrite lookup_empty. Qed.

Section Loop.

Variable op : opcode.table.

Lemma Compile_loop_placed n p a p' :
  Compile_loop op n p = Ok a p' -> placed p -> placed p'.
Proof.
  revert p. induction n as [|n IH]; intros p H Hp; simpl in H.
  - run; [done | discriminate].
  - run; [done|].
    match goal with
    | R : Compile_loop _ _ _ = Ok _ _ |- _ => apply IH in R; [done|]
    end.
    apply (placed_fields q); [done | done |].
    match goal with
    | R : Compile_switch _ _ = Ok _ _ |- _ =>
        apply Compile_switch_step in R as [R | [_ ->]]
    end.
    + by apply (step_placed p).
    + by apply (placed_fields p).
Qed.

(** The loop ends because the end of the stream is reached. *)
Lemma Compile_loop_EOF n p a p' :
  Compile_loop op n p = Ok a p' -> token.Type_ (curToken p') = token.EOF.
Proof.
  revert p. induction n as [|n IH]; intros p H; simpl in H.
  - run; [|discriminate]. by apply bool_decide_eq_true in Heqb.
  - run; [by apply bool_decide_eq_true in Heqb|]. eauto.
Qed.

(** *** Progress: every round reads a token *)

Lemma dataOp_progress p a p' :
  dataOp p = Ok a p' -> token.Type_ (curToken p) <> token.EOF ->
  (weight (advance p') < weight p)%nat.
Proof.
  unfold dataOp. intros H Hc.
  pose proof (advance_weight_lt p Hc) as Hlt. run.
  - progressed.
  - match goal with
    | R : dataOp_loop _ _ = Ok _ _ |- _ =>
        apply dataOp_loop_appends in R as [W _ _ _]
    end.
    rewrite weight_emit in W. pose proof (advance_weight p').
    lia.
Qed.

Lemma Compile_switch_progress p a p' :
  Compile_switch op p = Ok a p' ->
  token.Type_ (curToken p) <> token.EOF ->
  (weight (advance p') < weight p)%nat.
Proof.
  unfold Compile_switch. intros H Hc.
  pose proof (advance_weight_lt p Hc) as Hlt.
  run;
    first
      [ eapply dataOp_progress; [eassumption | congruence]
      | unfold exitOp, incOp, decOp, randOp, retOp, callOp, isIntOp,
          isStrOp, str2IntOp, int2StrOp, systemOp, cmpOp, concatOp,
          jumpOp, trapOp, memcpyOp, nopOp, peekOp, pokeOp, pushOp,
          popOp, storeOp, printInt, printString, mathOperation in *;
        run; progressed ].
Qed.

Lemma Compile_loop_fuel n p :
  (weight p <= n)%nat -> Compile_loop op n p <> OutOfFuel.
Proof.
  revert p. induction n as [|n IH]; intros p Hn; simpl.
  - apply bind_fuel; [done|]. intros ? ? H. run.
    case_bool_decide as Hc; [done|].
    pose proof (advance_weight_lt p Hc). lia.
  - apply bind_fuel; [done|]. intros ? ? H. run.
    case_bool_decide as Hc; [done|].
    apply bind_fuel; [apply Compile_switch_fuel|]. intros ? p1 H.
    apply bind_fuel; [done|]. intros ? ? H1. run.
    apply IH. pose proof (Compile_switch_progress _ _ _ H Hc). lia.
Qed.

Lemma weight_rounds p : (weight p <= rounds p)%nat.
Proof.
  unfold weight, rounds.
  pose proof (live_le (peekToken p)). pose proof (live_le (curToken p)).
  lia.
Qed.

Lemma Compile_scan_fuel : total (Compile_scan op).
Proof.
  intros p. unfold Compile_scan.
  apply bind_fuel; [done|]. intros ? ? H. run.
  apply Compile_loop_fuel, weight_rounds.
Qed.

Lemma Compile_fixups_fuel order : total (Compile_fixups order).
Proof.
  induction order as [|[a n] r IH]; simpl; [done|].
  apply total_bind; [|done].
  unfold fixup, store_byte. apply total_bind; [done|]. intros v.
  apply total_bind; [by destruct (v =? 0)|]. intros _.
  apply total_bind; intros; intros p; by destruct (_ && _).
Qed.

Lemma Compile_scan_placed p a p' :
  Compile_scan op p = Ok a p' -> placed p -> placed p'.
Proof.
  unfold Compile_scan. intros H. run. eauto using Compile_loop_placed.
Qed.

End Loop.

(** No run of [Compile] is cut short by the model's fuel. *)
Lemma Compile_never_OutOfFuel op p : Compile op p <> OutOfFuel.
Proof.
  unfold Compile. apply bind_fuel; [apply Compile_scan_fuel|].
  intros ? ? _. apply bind_fuel; [done|]. intros ? ? _.
  apply Compile_fixups_fuel.
Qed.

(** ** The fixup pass *)

(** [p.labels[name]]: the offset of the label, 0 when there is none. *)
Definition resolve (p : Compiler) (name : string) : Z :=
  default 0 (labels p !! name).

(** The two bytes of a numeric field as the spec words them: the low byte
    is the value mod 256, the high byte is (value - low) / 256, each
    reduced to a byte. *)
Definition low_byte (v : Z) : Z := byte (Z.rem v 256).
Definition high_byte (v : Z) : Z := byte (Z.quot (v - Z.rem v 256) 256).

Definition warning (p : Compiler) (name : string) : list Msg :=
  if resolve p name =? 0 then [UndefinedLabel name] else [].

(** The state after one reference has been patched. *)
Definition patched (addr : Z) (name : string) (p : Compiler) : Compiler :=
  mkCompiler (l p) (curToken p) (peekToken p)
    (<[Z.to_nat (addr + 1) := high_byte (resolve p name)]>
       (<[Z.to_nat addr := low_byte (resolve p name)]> (bytecode p)))
    (labels p) (fixups p) (stdout p ++ warning p name).

Definition patch_all (order : list (Z * string)) (p : Compiler) : Compiler :=
  foldl (fun q e => patched e.1 e.2 q) p order.

Lemma patch_all_cons e r p :
  patch_all (e :: r) p = patch_all r (patched e.1 e.2 p).
Proof. reflexivity. Qed.

Definition in_buffer (p : Compiler) (e : Z * string) : Prop :=
  0 <= e.1 /\ e.1 + 2 <= Z.of_nat (length (bytecode p)).

Lemma fixup_run addr name p :
  in_buffer p (addr, name) -> fixup addr name p = Ok tt (patched addr name p).
Proof.
  intros [H0 H2]. simpl in *.
  assert ((0 <=? addr) = true) as A1 by (apply Z.leb_le; lia).
  assert ((addr <? Z.of_nat (length (bytecode p))) = true) as A2
    by (apply Z.ltb_lt; lia).
  assert ((0 <=? addr + 1) = true) as A3 by (apply Z.leb_le; lia).
  assert ((addr + 1 <? Z.of_nat (length (bytecode p))) = true) as A4
    by (apply Z.ltb_lt; lia).
  unfold fixup, bind, gets, store_byte, Printf, modify, ret.
  fold (resolve p name).
  destruct (resolve p name =? 0) eqn:E;
    cbn [bytecode print stdout]; rewrite A1, A2;
    cbn [andb poke_byte bytecode stdout print]; rewrite length_insert, A3, A4;
    cbn [andb]; unfold patched, poke_byte, warning; rewrite E;
    cbn; by rewrite ?app_nil_r.
Qed.

Lemma patched_length a n p :
  length (bytecode (patched a n p)) = length (bytecode p).
Proof. cbn. by rewrite !length_insert. Qed.

Lemma in_buffer_patched a n p e : in_buffer p e -> in_buffer (patched a n p) e.
Proof. unfold in_buffer. by rewrite patched_length. Qed.

Lemma resolve_patched a n p m : resolve (patched a n p) m = resolve p m.
Proof. reflexivity. Qed.

Lemma patch_all_length order p :
  length (bytecode (patch_all order p)) = length (bytecode p).
Proof.
  revert p. induction order as [|e r IH]; intros p; [done|].
  by rewrite patch_all_cons, IH, patched_length.
Qed.

Lemma patch_all_labels order p : labels (patch_all order p) = labels p.
Proof.
  revert p. induction order as [|e r IH]; intros p; [done|].
  by rewrite patch_all_cons, IH.
Qed.

Lemma patch_all_fixups order p : fixups (patch_all order p) = fixups p.
Proof.
  revert p. induction order as [|e r IH]; intros p; [done|].
  by rewrite patch_all_cons, IH.
Qed.

Lemma patch_all_resolve order p m : resolve (patch_all order p) m = resolve p m.
Proof. unfold resolve. by rewrite patch_all_labels. Qed.

Lemma patch_all_stdout order p :
  stdout (patch_all order p)
  = stdout p ++ flat_map (fun e => warning p e.2) order.
Proof.
  revert p. induction order as [|e r IH]; intros p.
  - cbn. by rewrite app_nil_r.
  - rewrite patch_all_cons, IH. cbn. by rewrite <- app_assoc.
Qed.

Lemma Compile_fixups_run order p :
  Forall (in_buffer p) order ->
  Compile_fixups order p = Ok tt (patch_all order p).
Proof.
  revert p. induction order as [|[a n] r IH]; intros p Hin; [done|].
  apply Forall_cons in Hin as [Ha Hr]. cbn [Compile_fixups].
  unfold bind. rewrite fixup_run by done. apply IH.
  eapply Forall_impl; [exact Hr|]. intros e. apply in_buffer_patched.
Qed.

(** A byte that belongs to no reference is left as it was. *)
Lemma patch_all_other order p (i : nat) :
  (forall e, e ∈ order -> i <> Z.to_nat e.1 /\ i <> Z.to_nat (e.1 + 1)) ->
  bytecode (patch_all order p) !! i = bytecode p !! i.
Proof.
  revert p. induction order as [|e r IH]; intros p Hi; [done|].
  rewrite patch_all_cons, IH.
  - destruct (Hi e) as [H1 H2]; [left|]. cbn.
    rewrite list_lookup_insert_ne by done.
    by rewrite list_lookup_insert_ne.
  - intros e' He'. apply Hi. by right.
Qed.

(** Two entries are the same or lie two bytes apart. *)
Definition apart (e1 e2 : Z * string) : Prop :=
  e1 = e2 \/ e1.1 + 2 <= e2.1 \/ e2.1 + 2 <= e1.1.

(** Every reference ends up with the two bytes of its label's offset,
    whatever the order of the pass. *)
Lemma patch_all_at order p a n :
  Forall (in_buffer p) order ->
  (forall e1 e2, e1 ∈ order -> e2 ∈ order -> apart e1 e2) ->
  (a, n) ∈ order ->
  bytecode (patch_all order p) !! Z.to_nat a = Some (low_byte (resolve p n)) /\
  bytecode (patch_all order p) !! Z.to_nat (a + 1)
    = Some (high_byte (resolve p n)).
Proof.
  revert p. induction order as [|e r IH]; intros p Hin Hap He.
  - by apply elem_of_nil in He.
  - apply Forall_cons in Hin as [Hb Hr].
    rewrite patch_all_cons.
    destruct (decide ((a, n) ∈ r)) as [Hr'|Hr'].
    + rewrite <- (resolve_patched e.1 e.2 p n). apply IH; [| |done].
      * eapply Forall_impl; [exact Hr|]. intros e'. apply in_buffer_patched.
      * intros e1 e2 H1 H2. apply Hap; by right.
    + destruct (proj1 (elem_of_cons _ _ _) He) as [Heq|Hin']; [subst e|done].
      destruct Hb as [Hb0 Hb2]. cbn in Hb0, Hb2.
      assert (forall e', e' ∈ r ->
                a + 2 <= e'.1 \/ e'.1 + 2 <= a) as Hfar.
      { intros e' He'.
        destruct (Hap (a, n) e') as [Heq|H]; [by left|by right| |exact H].
        by subst e'. }
      assert (forall e', e' ∈ r -> 0 <= e'.1) as Hpos.
      { intros e' He'. by destruct (proj1 (Forall_forall _ _) Hr e' He'). }
      rewrite !patch_all_other.
      * cbn. split.
        -- rewrite list_lookup_insert_ne by lia.
           apply list_lookup_insert_eq. lia.
        -- apply list_lookup_insert_eq. rewrite length_insert. lia.
      * intros e' He'. specialize (Hfar e' He'). specialize (Hpos e' He').
        lia.
      * intros e' He'. specialize (Hfar e' He'). specialize (Hpos e' He').
        lia.
Qed.

(** ** The pass after the scan *)

Lemma order_elem p order e :
  order ≡ₚ map_to_list (fixups p) ->
  e ∈ order <-> fixups p !! e.1 = Some e.2.
Proof.
  intros Hp. rewrite Hp. destruct e as [a n]. apply elem_of_map_to_list.
Qed.

Lemma placed_order p order :
  placed p -> order ≡ₚ map_to_list (fixups p) ->
  Forall (in_buffer p) order /\
  (forall e1 e2, e1 ∈ order -> e2 ∈ order -> apart e1 e2).
Proof.
  intros [Hi Ha] Hp. split.
  - apply Forall_forall. intros e He.
    apply (order_elem p order e Hp) in He. by apply Hi in He.
  - intros [a1 n1] [a2 n2] H1 H2.
    apply (order_elem p order _ Hp) in H1, H2. cbn in H1, H2.
    destruct (decide (a1 = a2)) as [->|Hne].
    + left. congruence.
    + right. cbn. eauto.
Qed.

(** The bytecode after the pass does not depend on the order in which the
    map is ranged over. *)
Lemma Compile_fixups_order p order1 order2 :
  placed p ->
  order1 ≡ₚ map_to_list (fixups p) -> order2 ≡ₚ map_to_list (fixups p) ->
  bytecode (patch_all order1 p) = bytecode (patch_all order2 p).
Proof.
  intros Hpl H1 H2.
  destruct (placed_order p order1 Hpl H1) as [Hin1 Hap1].
  destruct (placed_order p order2 Hpl H2) as [Hin2 Hap2].
  apply list_eq. intros i.
  destruct (decide (Exists (fun e : Z * string =>
              i = Z.to_nat e.1 \/ i = Z.to_nat (e.1 + 1)) order1))
    as [Hex|Hno].
  - apply Exists_exists in Hex as ([a n] & He & Hi). cbn in Hi.
    assert ((a, n) ∈ order2) as He2 by (by rewrite H2, <- H1).
    destruct (patch_all_at order1 p a n Hin1 Hap1 He) as [L1 L1'].
    destruct (patch_all_at order2 p a n Hin2 Hap2 He2) as [L2 L2'].
    destruct Hi as [->| ->]; congruence.
  - assert (forall e, e ∈ order1 ->
              i <> Z.to_nat e.1 /\ i <> Z.to_nat (e.1 + 1)) as Hfree.
    { intros e He. split; intros ->; apply Hno, Exists_exists;
        exists e; auto. }
    rewrite !patch_all_other; [done| |done].
    intros e He. apply Hfree. by rewrite H1, <- H2.
Qed.

Section Scanned.

Variable op : opcode.table.

Lemma scanned_placed ts a p :
  Compile_scan op (New ts) = Ok a p -> placed p.
Proof. intros H. eapply Compile_scan_placed; [exact H|apply New_placed]. Qed.

(** After a scan that returned, the pass returns too, in any order. *)
Lemma scanned_fixups ts a p order :
  Compile_scan op (New ts) = Ok a p ->
  order ≡ₚ map_to_list (fixups p) ->
  Compile_fixups order p = Ok tt (patch_all order p).
Proof.
  intros Hs Ho. apply Compile_fixups_run.
  by apply placed_order; [eapply scanned_placed|].
Qed.

Lemma scanned_at ts a0 p order a n :
  Compile_scan op (New ts) = Ok a0 p ->
  order ≡ₚ map_to_list (fixups p) ->
  fixups p !! a = Some n ->
  bytecode (patch_all order p) !! Z.to_nat a
    = Some (low_byte (resolve p n)) /\
  bytecode (patch_all order p) !! Z.to_nat (a + 1)
    = Some (high_byte (resolve p n)).
Proof.
  intros Hs Ho Hf.
  destruct (placed_order p order (scanned_placed _ _ _ Hs) Ho) as [Hin Hap].
  apply patch_all_at; [done|done|]. by apply (order_elem p order (a, n)).
Qed.

Lemma scanned_Compile ts a p :
  Compile_scan op (New ts) = Ok a p ->
  Compile op (New ts)
  = Ok tt (patch_all (map_to_list (fixups p)) p).
Proof.
  intros Hs. unfold Compile, bind. rewrite Hs. unfold gets.
  by eapply scanned_fixups.
Qed.

End Scanned.

(** ** The two bytes of a numeric field *)

Lemma byte_range x : 0 <= byte x < 256.
Proof. unfold byte. apply Z.mod_pos_bound. lia. Qed.

Lemma low_byte_nonneg v : 0 <= v -> low_byte v = v mod 256.
Proof.
  intros Hv. unfold low_byte, byte. rewrite Z.rem_mod_nonneg by lia.
  apply Z.mod_mod. lia.
Qed.

Lemma high_byte_nonneg v : 0 <= v -> high_byte v = (v / 256) mod 256.
Proof.
  intros Hv. unfold high_byte, byte.
  rewrite Z.rem_mod_nonneg by lia.
  rewrite Z.quot_div_nonneg; [|pose proof (Z.mod_le v 256); lia | lia].
  f_equal. rewrite (Z.div_mod v 256) at 1 by lia.
  replace (256 * (v / 256) + v mod 256 - v mod 256) with ((v / 256) * 256)
    by lia.
  apply Z.div_mul. lia.
Qed.

Lemma low_high_exact v :
  0 <= v <= 65535 -> low_byte v + 256 * high_byte v = v.
Proof.
  intros Hv. rewrite low_byte_nonneg, high_byte_nonneg by lia.
  rewrite (Z.mod_small (v / 256)).
  - pose proof (Z.div_mod v 256). lia.
  - split; [apply Z.div_pos; lia|]. apply Z.div_lt_upper_bound; lia.
Qed.

Lemma low_high_wrap v :
  0 <= v ->
  low_byte (v + 65536) = low_byte v /\ high_byte (v + 65536) = high_byte v.
Proof.
  intros Hv. rewrite !low_byte_nonneg, !high_byte_nonneg by lia. split.
  - replace (v + 65536) with (v + 256 * 256) by lia.
    by rewrite Z.add_mod, Z.mod_mul, Z.add_0_r, Z.mod_mod by lia.
  - replace (v + 65536) with (v + 256 * 256) by lia.
    rewrite Z.div_add by lia.
    replace (v / 256 + 256) with (v / 256 + 1 * 256) by lia.
    by rewrite Z.mod_add by lia.
Qed.

(** ** Running a statement forwards *)

Lemma bind_run {A B} (m : M A) (f : A -> M B) p a p1 :
  m p = Ok a p1 -> bind m f p = f a p1.
Proof. unfold bind. by intros ->. Qed.

Lemma expectPeek_run t p :
  token.Type_ (peekToken p) = t -> expectPeek t p = Ok true (advance p).
Proof.
  intros Ht. unfold expectPeek, peekTokenIs, bind, gets.
  by rewrite bool_decide_eq_true_2.
Qed.

Lemma getRegister_run s r p :
  strconv.Atoi (TrimPrefix s "#") = (r, None) -> 0 <= r <= 15 ->
  getRegister s p = Ok r p.
Proof.
  intros Ha Hr. unfold getRegister. rewrite Ha.
  rewrite (proj2 (Z.leb_le 0 r)), (proj2 (Z.leb_le r 15)) by lia.
  cbn. unfold ret, byte. by rewrite Z.mod_small by lia.
Qed.

Ltac look :=
  cbn [token.Type_ token.Literal curToken peekToken l advance emit emit_all
       set_fixup set_label print NextToken fst snd tk negb].

Ltac prim :=
  first
    [ apply expectPeek_run; reflexivity
    | apply getRegister_run; [eassumption | assumption]
    | apply append_all_run
    | reflexivity ].

Ltac fwd := repeat (look; erewrite bind_run by prim; cbv beta).

(** * The specified behaviour *)

(** The tokens a statement has before it: the lookahead token, then the
    tokens still in the lexer. *)
Definition upcoming (p : Compiler) : list Token := peekToken p :: l p.

(** The text [s] names register [r]. *)
Definition is_register (s : string) (r : Z) : Prop :=
  strconv.Atoi (TrimPrefix s "#") = (r, None) /\ 0 <= r <= 15.

Ltac start p H :=
  let ts := fresh "ts" in
  let cur := fresh "cur" in
  let pk := fresh "pk" in
  let bc := fresh "bc" in
  let lb := fresh "lb" in
  let fx := fresh "fx" in
  let out := fresh "out" in
  destruct p as [ts cur pk bc lb fx out]; unfold upcoming in H; cbn in H;
  injection H as -> ->.

Ltac emitted :=
  cbn [bytecode emit emit_all advance]; rewrite <- ?app_assoc; reflexivity.

Section Specification.

Variable op : opcode.table.

(** ** Labels and references *)

(** C1.  The program [jmp target / :target / exit] compiles to the jump
    opcode, the bytes 3 and 0, and the exit opcode: the scan leaves the
    placeholders 0, 0 at offsets 1 and 2, a reference at offset 1 and the
    label at offset 3, and the pass patches them.  In general, a label
    token records the length of the buffer under its name, and after a
    scan that returned the pass gives every reference whose label is in
    the table the two bytes of the offset recorded for it, in whatever
    order the references are taken. *)
Theorem forward_reference_resolves :
  run op [tk token.JMP "jmp"; tk token.IDENT "target";
          tk token.LABEL ":target"; tk token.EXIT "exit"]
  = Some [byte (opcode.JUMP_TO op); 3; 0; byte (opcode.EXIT op)]
  /\ (exists p,
        Compile_scan op (New [tk token.JMP "jmp"; tk token.IDENT "target";
                              tk token.LABEL ":target"; tk token.EXIT "exit"])
        = Ok tt p /\
        bytecode p = [byte (opcode.JUMP_TO op); 0; 0; byte (opcode.EXIT op)] /\
        fixups p !! 1 = Some "target"%string /\
        labels p !! "target"%string = Some 3)
  /\ (forall p lit,
        curToken p = tk token.LABEL lit ->
        Compile_switch op p = Ok tt (set_label (TrimPrefix lit ":") p) /\
        labels (set_label (TrimPrefix lit ":") p) !! TrimPrefix lit ":"
        = Some (Z.of_nat (length (bytecode p))))
  /\ (forall ts p order,
        Compile_scan op (New ts) = Ok tt p ->
        order ≡ₚ map_to_list (fixups p) ->
        exists p',
          Compile_fixups order p = Ok tt p' /\
          forall addr name v,
            fixups p !! addr = Some name ->
            labels p !! name = Some v ->
            bytecode p' !! Z.to_nat addr = Some (low_byte v) /\
            bytecode p' !! Z.to_nat (addr + 1) = Some (high_byte v)).
Proof.
  split; [vm_compute; reflexivity|]. split.
  { eexists. split; [vm_compute; reflexivity|]. by vm_compute. }
  split.
  - intros p lit Hc. split.
    + unfold Compile_switch, bind, gets. rewrite Hc. reflexivity.
    + cbn. apply lookup_insert_eq.
  - intros ts p order Hs Ho. exists (patch_all order p). split.
    + by eapply scanned_fixups.
    + intros addr name v Hf Hl.
      destruct (scanned_at op ts tt p order addr name Hs Ho Hf) as [H1 H2].
      unfold resolve in H1, H2. rewrite Hl in H1, H2. done.
Qed.

(** C2.  A label defined at offset 0 is in the table, and yet the pass
    reports it as possibly undefined: the report is made on the value 0,
    not on the absence of the name. *)
Theorem label_at_offset_zero_reported :
  exists p,
    Compile op (New [tk token.LABEL ":start"; tk token.JMP "jmp";
                     tk token.IDENT "start"]) = Ok tt p /\
    labels p !! "start"%string = Some 0 /\
    bytecode p = [byte (opcode.JUMP_TO op); 0; 0] /\
    stdout p = [UndefinedLabel "start"].
Proof. eexists. split; [vm_compute; reflexivity|]. by vm_compute. Qed.

(** C8.  After a scan that returned, the pass returns in every order, and
    a reference whose label is not in the table gets the warning and the
    two bytes 0; the run as a whole returns its bytecode. *)
Theorem unresolved_label_warns_and_patches_zero ts p order :
  Compile_scan op (New ts) = Ok tt p ->
  order ≡ₚ map_to_list (fixups p) ->
  (exists p',
     Compile_fixups order p = Ok tt p' /\
     forall addr name,
       fixups p !! addr = Some name ->
       labels p !! name = None ->
       UndefinedLabel name ∈ stdout p' /\
       bytecode p' !! Z.to_nat addr = Some 0 /\
       bytecode p' !! Z.to_nat (addr + 1) = Some 0)
  /\ exists out, run op ts = Some out /\ length out = length (bytecode p).
Proof.
  intros Hs Ho. split.
  - exists (patch_all order p). split; [by eapply scanned_fixups|].
    intros addr name Hf Hl.
    destruct (scanned_at op ts tt p order addr name Hs Ho Hf) as [H1 H2].
    assert (resolve p name = 0) as Hz by (unfold resolve; by rewrite Hl).
    rewrite Hz in H1, H2. split; [|done].
    rewrite patch_all_stdout. apply elem_of_app. right.
    apply list_elem_of_In, in_flat_map. exists (addr, name). split.
    + apply list_elem_of_In. by apply (order_elem p order (addr, name)).
    + unfold warning. cbn. rewrite Hz. cbn. by left.
  - unfold run. rewrite (scanned_Compile op ts tt p Hs).
    eexists. split; [reflexivity|]. apply patch_all_length.
Qed.

(** C10.  After a scan that returned, every reference has its two bytes
    inside the buffer; the pass returns, keeps the length of the buffer,
    writes the two bytes of every reference, and leaves every other byte
    as it was. *)
Theorem fixup_pass_in_place ts p order :
  Compile_scan op (New ts) = Ok tt p ->
  order ≡ₚ map_to_list (fixups p) ->
  (forall addr name,
     fixups p !! addr = Some name ->
     0 <= addr /\ addr + 1 < Z.of_nat (length (bytecode p)))
  /\ exists p',
       Compile_fixups order p = Ok tt p' /\
       length (bytecode p') = length (bytecode p) /\
       (forall addr name,
          fixups p !! addr = Some name ->
          bytecode p' !! Z.to_nat addr
            = Some (low_byte (resolve p name)) /\
          bytecode p' !! Z.to_nat (addr + 1)
            = Some (high_byte (resolve p name))) /\
       (forall i : nat,
          (forall addr name,
             fixups p !! addr = Some name ->
             Z.of_nat i <> addr /\ Z.of_nat i <> addr + 1) ->
          bytecode p' !! i = bytecode p !! i).
Proof.
  intros Hs Ho. pose proof (scanned_placed op ts tt p Hs) as Hpl. split.
  - intros addr name Hf. apply (placed_in p Hpl) in Hf. lia.
  - exists (patch_all order p).
    split; [by eapply scanned_fixups|].
    split; [apply patch_all_length|].
    split; [intros addr name Hf; by eapply scanned_at|].
    intros i Hi. apply patch_all_other. intros [a n] He.
    apply (order_elem p order (a, n) Ho) in He. cbn in He |- *.
    destruct (Hi a n He) as [H1 H2].
    apply (placed_in p Hpl) in He. lia.
Qed.

(** ** Operands *)

(** C3.  [trap] with a name or a register for operand prints "Fail!" and
    returns: the run is not aborted, the statements after it are
    compiled, and the bytecode is returned. *)
Theorem trap_operand_not_fatal :
  (exists p,
     Compile op (New [tk token.TRAP "trap"; tk token.IDENT "target";
                      tk token.EXIT "exit"]) = Ok tt p /\
     bytecode p = [byte (opcode.EXIT op)] /\ stdout p = [TrapFail])
  /\ run op [tk token.TRAP "trap"; tk token.IDENT "#1";
             tk token.EXIT "exit"] = Some [byte (opcode.EXIT op)].
Proof.
  split; [|vm_compute; reflexivity].
  eexists. split; [vm_compute; reflexivity|]. by vm_compute.
Qed.

(** C4.  [jmp] and [call] with an operand that is neither an integer nor
    an identifier emit the opcode alone, print nothing, and the run goes
    on. *)
Theorem jump_operand_silently_dropped :
  (exists p,
     Compile op (New [tk token.JMP "jmp"; tk token.COMMA ",";
                      tk token.EXIT "exit"]) = Ok tt p /\
     bytecode p = [byte (opcode.JUMP_TO op); byte (opcode.EXIT op)] /\
     stdout p = [])
  /\ (exists p,
     Compile op (New [tk token.CALL "call"; tk token.STRING "x";
                      tk token.EXIT "exit"]) = Ok tt p /\
     bytecode p = [byte (opcode.STACK_CALL op); byte (opcode.EXIT op)] /\
     stdout p = []).
Proof.
  split; eexists; (split; [vm_compute; reflexivity|]); by vm_compute.
Qed.

(** C5.  [add #1, 2, #3] has an integer where the second register is
    expected: nothing is reported for it, no byte is emitted, and the run
    goes on with the tokens that are left.  [memcpy #1, 2, #3] is
    compiled as if the integer were a register.  [store #1 42] lacks the
    comma: the run exits, and the message names the kind of the current
    token (the identifier), not the kind of the token found (the
    integer). *)
Theorem operand_shape_not_enforced :
  (exists p,
     Compile op (New [tk token.ADD "add"; tk token.IDENT "#1";
                      tk token.COMMA ","; tk token.INT "2";
                      tk token.COMMA ","; tk token.IDENT "#3"]) = Ok tt p /\
     bytecode p = [] /\
     stdout p = [UnhandledToken (tk token.COMMA ",");
                 UnhandledToken (tk token.IDENT "#3")])
  /\ run op [tk token.MEMCPY "memcpy"; tk token.IDENT "#1";
             tk token.COMMA ","; tk token.INT "2";
             tk token.COMMA ","; tk token.IDENT "#3"]
     = Some [byte (opcode.MEMCPY op); 1; 2; 3]
  /\ Compile op (New [tk token.STORE "store"; tk token.IDENT "#1";
                      tk token.INT "42"])
     = Exit 1 [ExpectedNext token.COMMA token.IDENT].
Proof.
  split; [|split; vm_compute; reflexivity].
  eexists. split; [vm_compute; reflexivity|]. by vm_compute.
Qed.

(** C6.  For every register index [r] from 0 to 15, [store #r, 42]
    compiles to the four bytes INT_STORE, [r], 42, 0. *)
Theorem store_register_int (r : Z) :
  0 <= r <= 15 ->
  run op [tk token.STORE "store"; tk token.IDENT ("#" +:+ pretty r);
          tk token.COMMA ","; tk token.INT "42"]
  = Some [byte (opcode.INT_STORE op); r; 42; 0].
Proof.
  intros Hr.
  assert (r = 0 \/ r = 1 \/ r = 2 \/ r = 3 \/ r = 4 \/ r = 5 \/ r = 6 \/
          r = 7 \/ r = 8 \/ r = 9 \/ r = 10 \/ r = 11 \/ r = 12 \/
          r = 13 \/ r = 14 \/ r = 15) as Hcases by lia.
  repeat (destruct Hcases as [->|Hcases]; [vm_compute; reflexivity|]).
  subst r. vm_compute. reflexivity.
Qed.

(** C9.  [store #16, 1]: the register is out of bounds; the run prints
    the error and exits with status 1, and there is no bytecode. *)
Theorem register_out_of_range_aborts :
  Compile op (New [tk token.STORE "store"; tk token.IDENT "#16";
                   tk token.COMMA ","; tk token.INT "1"])
  = Exit 1 [RegisterOutOfBounds "#16"]
  /\ run op [tk token.STORE "store"; tk token.IDENT "#16";
             tk token.COMMA ","; tk token.INT "1"] = None.
Proof. split; vm_compute; reflexivity. Qed.

(** ** Numeric fields *)

(** C7.  Every numeric field is two bytes, the low one first: the
    immediates of [store] and [cmp], the lengths of their strings, the
    targets of the jumps, of [call] and of [trap], and the offset the
    pass writes.  The bytes are [byte(v % 256)] and
    [byte((v - v % 256) / 256)] with Go's remainder and quotient; no
    value of [v] makes the statement fail.  For [v >= 0] they are
    [v mod 256] and [(v / 256) mod 256]: exact up to 65535, and the same
    again 65536 further on. *)
Theorem numeric_fields_two_bytes_little_endian :
  (forall p rlit reg c ilit rest,
     upcoming p = tk token.IDENT rlit :: tk token.COMMA c
                    :: tk token.INT ilit :: rest ->
     is_register rlit reg ->
     let v := (strconv.ParseInt ilit 0).1 in
     (exists p', storeOp op p = Ok tt p' /\
        bytecode p' = bytecode p
          ++ [byte (opcode.INT_STORE op); reg; low_byte v; high_byte v]) /\
     (exists p', cmpOp op p = Ok tt p' /\
        bytecode p' = bytecode p
          ++ [byte (opcode.CMP_IMMEDIATE op); reg; low_byte v; high_byte v]))
  /\ (forall p rlit reg c s rest,
     upcoming p = tk token.IDENT rlit :: tk token.COMMA c
                    :: tk token.STRING s :: rest ->
     is_register rlit reg ->
     let v := Z.of_nat (String.length s) in
     (exists p', storeOp op p = Ok tt p' /\
        bytecode p' = bytecode p
          ++ [byte (opcode.STRING_STORE op); reg; low_byte v; high_byte v]
          ++ bytes_of_string s) /\
     (exists p', cmpOp op p = Ok tt p' /\
        bytecode p' = bytecode p
          ++ [byte (opcode.CMP_STRING op); reg; low_byte v; high_byte v]
          ++ bytes_of_string s))
  /\ (forall p operator ilit rest,
     upcoming p = tk token.INT ilit :: rest ->
     let v := (strconv.ParseInt ilit 0).1 in
     (exists p', jumpOp operator p = Ok tt p' /\
        bytecode p' = bytecode p
          ++ [byte operator; low_byte v; high_byte v]) /\
     (exists p', callOp op p = Ok tt p' /\
        bytecode p' = bytecode p
          ++ [byte (opcode.STACK_CALL op); low_byte v; high_byte v]) /\
     (exists p', trapOp op p = Ok tt p' /\
        bytecode p' = bytecode p
          ++ [byte (opcode.TRAP_OP op); low_byte v; high_byte v]))
  /\ (forall p addr name,
     0 <= addr /\ addr + 1 < Z.of_nat (length (bytecode p)) ->
     let v := default 0 (labels p !! name) in
     exists p', fixup addr name p = Ok tt p' /\
       length (bytecode p') = length (bytecode p) /\
       bytecode p' !! Z.to_nat addr = Some (low_byte v) /\
       bytecode p' !! Z.to_nat (addr + 1) = Some (high_byte v))
  /\ (forall v,
     low_byte v = byte (Z.rem v 256) /\
     high_byte v = byte (Z.quot (v - Z.rem v 256) 256) /\
     0 <= low_byte v < 256 /\ 0 <= high_byte v < 256)
  /\ (forall v, 0 <= v ->
     low_byte v = v mod 256 /\ high_byte v = (v / 256) mod 256)
  /\ (forall v, 0 <= v <= 65535 -> low_byte v + 256 * high_byte v = v)
  /\ (forall v, 0 <= v ->
     low_byte (v + 65536) = low_byte v /\
     high_byte (v + 65536) = high_byte v).
Proof.
  repeat apply conj.
  - intros p rlit reg c ilit rest H [Ha Hr] v. start p H. split.
    + eexists. split; [unfold storeOp; fwd; look; reflexivity | emitted].
    + eexists. split; [unfold cmpOp; fwd; look; reflexivity | emitted].
  - intros p rlit reg c s rest H [Ha Hr] v. start p H. split.
    + eexists.
      split; [unfold storeOp; fwd; look; apply append_all_run | emitted].
    + eexists.
      split; [unfold cmpOp; fwd; look; apply append_all_run | emitted].
  - intros p operator ilit rest H v. start p H. repeat apply conj.
    + eexists. split; [unfold jumpOp; fwd; look; reflexivity | emitted].
    + eexists. split; [unfold callOp; fwd; look; reflexivity | emitted].
    + eexists. split; [unfold trapOp; fwd; look; reflexivity | emitted].
  - intros p addr name [H0 H1] v. exists (patched addr name p).
    split; [apply fixup_run; split; cbn; lia|].
    split; [apply patched_length|]. cbn. split.
    + rewrite list_lookup_insert_ne by lia.
      apply list_lookup_insert_eq. lia.
    + apply list_lookup_insert_eq. rewrite length_insert. lia.
  - intros v. repeat apply conj; try reflexivity; apply byte_range.
  - intros v Hv. split; [by apply low_byte_nonneg|by apply high_byte_nonneg].
  - apply low_high_exact.
  - apply low_high_wrap.
Qed.

End Specification.

(** ** The theorems at concrete programs *)

(** [jmp target / :target / exit]. *)
Definition forward_program : list Token :=
  [tk token.JMP "jmp"; tk token.IDENT "target"; tk token.LABEL ":target";
   tk token.EXIT "exit"].

(** [jmp nowhere / exit]: the label is never defined. *)
Definition dangling_program : list Token :=
  [tk token.JMP "jmp"; tk token.IDENT "nowhere"; tk token.EXIT "exit"].

(** [call sub / jmp end / :sub / ret / :end / exit]. *)
Definition two_references_program : list Token :=
  [tk token.CALL "call"; tk token.IDENT "sub"; tk token.JMP "jmp";
   tk token.IDENT "end"; tk token.LABEL ":sub"; tk token.RET "ret";
   tk token.LABEL ":end"; tk token.EXIT "exit"].

(** The state a program is in after the first loop of [Compile]. *)
Definition scanned (ts : list Token) : Compiler :=
  match Compile_scan sample_opcodes (New ts) with
  | Ok _ p => p
  | _ => New []
  end.

Lemma forward_reference_resolves_witness :
  Compile_scan sample_opcodes (New forward_program)
  = Ok tt (scanned forward_program) /\
  fixups (scanned forward_program) !! 1 = Some "target"%string /\
  labels (scanned forward_program) !! "target"%string = Some 3 /\
  exists p',
    Compile_fixups (map_to_list (fixups (scanned forward_program)))
      (scanned forward_program) = Ok tt p' /\
    bytecode p' !! 1%nat = Some 3 /\ bytecode p' !! 2%nat = Some 0.
Proof.
  assert (Compile_scan sample_opcodes (New forward_program)
          = Ok tt (scanned forward_program)) as Hs
    by (vm_compute; reflexivity).
  assert (fixups (scanned forward_program) !! 1 = Some "target"%string)
    as Hf by (vm_compute; reflexivity).
  assert (labels (scanned forward_program) !! "target"%string = Some 3)
    as Hl by (vm_compute; reflexivity).
  split; [exact Hs|]. split; [exact Hf|]. split; [exact Hl|].
  destruct (proj2 (proj2 (proj2 (forward_reference_resolves sample_opcodes)))
              forward_program (scanned forward_program)
              (map_to_list (fixups (scanned forward_program)))
              Hs (reflexivity _)) as (p' & Hrun & Hat).
  exists p'. split; [exact Hrun|]. exact (Hat 1 "target"%string 3 Hf Hl).
Defined.

Lemma unresolved_label_warns_and_patches_zero_witness :
  Compile_scan sample_opcodes (New dangling_program)
  = Ok tt (scanned dangling_program) /\
  fixups (scanned dangling_program) !! 1 = Some "nowhere"%string /\
  labels (scanned dangling_program) !! "nowhere"%string = None /\
  (exists p',
     Compile_fixups (map_to_list (fixups (scanned dangling_program)))
       (scanned dangling_program) = Ok tt p' /\
     UndefinedLabel "nowhere" ∈ stdout p' /\
     bytecode p' !! 1%nat = Some 0 /\ bytecode p' !! 2%nat = Some 0) /\
  exists out, run sample_opcodes dangling_program = Some out /\
              length out = 4%nat.
Proof.
  assert (Compile_scan sample_opcodes (New dangling_program)
          = Ok tt (scanned dangling_program)) as Hs
    by (vm_compute; reflexivity).
  assert (fixups (scanned dangling_program) !! 1 = Some "nowhere"%string)
    as Hf by (vm_compute; reflexivity).
  assert (labels (scanned dangling_program) !! "nowhere"%string = None)
    as Hl by (vm_compute; reflexivity).
  destruct (unresolved_label_warns_and_patches_zero sample_opcodes
              dangling_program (scanned dangling_program)
              (map_to_list (fixups (scanned dangling_program)))
              Hs (reflexivity _)) as [(p' & Hrun & Hat) Hout].
  split; [exact Hs|]. split; [exact Hf|]. split; [exact Hl|]. split.
  - exists p'. split; [exact Hrun|]. exact (Hat 1 "nowhere"%string Hf Hl).
  - destruct Hout as (out & Hout & Hlen). exists out.
    split; [exact Hout|]. rewrite Hlen. vm_compute. reflexivity.
Defined.

Lemma fixup_pass_in_place_witness :
  Compile_scan sample_opcodes (New two_references_program)
  = Ok tt (scanned two_references_program) /\
  bytecode (scanned two_references_program) = [115; 0; 0; 16; 0; 0; 114; 0] /\
  exists p',
    Compile_fixups (map_to_list (fixups (scanned two_references_program)))
      (scanned two_references_program) = Ok tt p' /\
    length (bytecode p') = 8%nat /\
    bytecode p' !! 0%nat = Some 115 /\
    bytecode p' !! 1%nat = Some 6 /\ bytecode p' !! 2%nat = Some 0 /\
    bytecode p' !! 4%nat = Some 7 /\ bytecode p' !! 5%nat = Some 0.
Proof.
  assert (Compile_scan sample_opcodes (New two_references_program)
          = Ok tt (scanned two_references_program)) as Hs
    by (vm_compute; reflexivity).
  assert (bytecode (scanned two_references_program)
          = [115; 0; 0; 16; 0; 0; 114; 0]) as Hb
    by (vm_compute; reflexivity).
  assert (fixups (scanned two_references_program) !! 1
          = Some "sub"%string) as H1 by (vm_compute; reflexivity).
  assert (fixups (scanned two_references_program) !! 4
          = Some "end"%string) as H4 by (vm_compute; reflexivity).
  assert (fixups (scanned two_references_program) !! 0 = None) as H0
    by (vm_compute; reflexivity).
  assert (resolve (scanned two_references_program) "sub" = 6) as R1
    by (vm_compute; reflexivity).
  assert (resolve (scanned two_references_program) "end" = 7) as R4
    by (vm_compute; reflexivity).
  destruct (fixup_pass_in_place sample_opcodes two_references_program
              (scanned two_references_program) _ Hs (reflexivity _))
    as (Hin & p' & Hrun & Hlen & Hat & Hother).
  split; [exact Hs|]. split; [exact Hb|].
  exists p'. split; [exact Hrun|].
  split; [rewrite Hlen, Hb; reflexivity|].
  split.
  - rewrite (Hother 0%nat), Hb; [reflexivity|].
    intros addr name Hf. apply Hin in Hf as Hr.
    destruct (decide (addr = 0)) as [->|]; [|lia].
    rewrite H0 in Hf. discriminate Hf.
  - destruct (Hat 1 "sub"%string H1) as [L1 L2].
    destruct (Hat 4 "end"%string H4) as [L4 L5].
    rewrite R1 in L1, L2. rewrite R4 in L4, L5.
    split; [exact L1|]. split; [exact L2|]. split; [exact L4|exact L5].
Defined.

Lemma store_register_int_witness :
  0 <= 7 <= 15 /\
  run sample_opcodes
    [tk token.STORE "store"; tk token.IDENT ("#" +:+ pretty 7);
     tk token.COMMA ","; tk token.INT "42"]
  = Some [byte (opcode.INT_STORE sample_opcodes); 7; 42; 0].
Proof.
  split; [lia|]. apply (store_register_int sample_opcodes 7). lia.
Defined.

Lemma numeric_fields_two_bytes_little_endian_witness :
  upcoming (New [tk token.STORE "store"; tk token.IDENT "#1";
                 tk token.COMMA ","; tk token.INT "300"])
  = [tk token.IDENT "#1"; tk token.COMMA ","; tk token.INT "300"] /\
  is_register "#1" 1 /\
  (exists p',
     storeOp sample_opcodes
       (New [tk token.STORE "store"; tk token.IDENT "#1";
             tk token.COMMA ","; tk token.INT "300"]) = Ok tt p' /\
     bytecode p' = [1; 1; 44; 1]) /\
  low_byte 300 + 256 * high_byte 300 = 300.
Proof.
  assert (is_register "#1" 1) as Hr by (split; [reflexivity|lia]).
  split; [reflexivity|]. split; [exact Hr|].
  destruct (numeric_fields_two_bytes_little_endian sample_opcodes)
    as (Himm & _ & _ & _ & _ & _ & Hexact & _).
  split.
  - destruct (Himm (New [tk token.STORE "store"; tk token.IDENT "#1";
                         tk token.COMMA ","; tk token.INT "300"])
                "#1"%string 1 ","%string "300"%string [] (reflexivity _) Hr)
      as [(p' & Hrun & Hb) _].
    exists p'. split; [exact Hrun|]. vm_compute in Hb. exact Hb.
  - apply Hexact. lia.
Defined.

(** * More of the compiler *)

(** ** The compiler over a list of tokens *)

Definition eof : Token := token.mk token.EOF "".

(** The compiler that has the tokens [ts] before it, the first of them
    current: the current and the lookahead token are the first two (the
    end of the stream when there are not as many), the lexer holds the
    others. *)
Definition stream (ts : list Token) (bc : list Z) (lb : gmap string Z)
    (fx : gmap Z string) (out : list Msg) : Compiler :=
  mkCompiler (drop 2 ts) (nth 0 ts eof) (nth 1 ts eof) bc lb fx out.

Lemma New_stream ts : New ts = stream ts [] ∅ ∅ [].
Proof. by destruct ts as [|a [|b r]]. Qed.

Lemma advance_stream t ts bc lb fx out :
  advance (stream (t :: ts) bc lb fx out) = stream ts bc lb fx out.
Proof. by destruct ts as [|a [|b r]]. Qed.

Lemma advance_stream_nil bc lb fx out :
  advance (stream [] bc lb fx out) = stream [] bc lb fx out.
Proof. reflexivity. Qed.

Lemma weight_stream ts bc lb fx out :
  (weight (stream ts bc lb fx out) <= length ts)%nat.
Proof.
  unfold weight, stream. cbn [l curToken peekToken].
  destruct ts as [|a [|b r]]; cbn.
  - change (live eof) with 0%nat. lia.
  - change (live eof) with 0%nat. pose proof (live_le a). lia.
  - rewrite length_drop. cbn.
    pose proof (live_le a). pose proof (live_le b). lia.
Qed.

Section Scan.

Variable op : opcode.table.

(** Fuel beyond the weight of the state changes nothing. *)
Lemma Compile_loop_fuel_irrelevant n m p :
  (weight p <= n)%nat -> (weight p <= m)%nat ->
  Compile_loop op n p = Compile_loop op m p.
Proof.
  revert m p. induction n as [|n IH]; intros m p Hn Hm.
  - destruct m as [|m]; [done|]. cbn [Compile_loop].
    unfold bind, curTokenIs, gets. case_bool_decide as Hc; [done|].
    pose proof (advance_weight_lt p Hc). lia.
  - destruct m as [|m]; cbn [Compile_loop];
      unfold bind, curTokenIs, gets; case_bool_decide as Hc; try done.
    + pose proof (advance_weight_lt p Hc). lia.
    + destruct (Compile_switch op p) as [[] p1| | |] eqn:E; try done.
      unfold nextToken, modify.
      pose proof (Compile_switch_progress op p tt p1 E Hc).
      apply IH; lia.
Qed.

Lemma Compile_scan_loop p : Compile_scan op p = Compile_loop op (rounds p) p.
Proof. reflexivity. Qed.

(** The scan is over when the current token is the end of the stream. *)
Lemma scan_done p :
  token.Type_ (curToken p) = token.EOF -> Compile_scan op p = Ok tt p.
Proof.
  intros Hc. rewrite Compile_scan_loop.
  destruct (rounds p); cbn [Compile_loop]; unfold bind, curTokenIs, gets;
    by rewrite bool_decide_eq_true_2.
Qed.

(** One round of the scan: the statement, then the next token. *)
Lemma scan_step p p1 p2 :
  token.Type_ (curToken p) <> token.EOF ->
  Compile_switch op p = Ok tt p1 ->
  advance p1 = p2 ->
  Compile_scan op p = Compile_scan op p2.
Proof.
  intros Hc Hs <-. rewrite !Compile_scan_loop.
  pose proof (Compile_switch_progress op p tt p1 Hs Hc) as Hlt.
  pose proof (weight_rounds p) as Hp.
  pose proof (weight_rounds (advance p1)) as Hq.
  replace (rounds p) with (S (length (l p) + 1))
    by (unfold rounds; lia).
  unfold rounds in Hp.
  transitivity (Compile_loop op (length (l p) + 1) (advance p1)).
  - cbn [Compile_loop]. unfold bind, curTokenIs, gets.
    rewrite bool_decide_eq_false_2 by done. by rewrite Hs.
  - apply Compile_loop_fuel_irrelevant; lia.
Qed.

(** A statement that ends the run ends the scan. *)
Lemma scan_exit p c out :
  token.Type_ (curToken p) <> token.EOF ->
  Compile_switch op p = Exit c out ->
  Compile_scan op p = Exit c out.
Proof.
  intros Hc Hs. rewrite Compile_scan_loop.
  replace (rounds p) with (S (length (l p) + 1))
    by (unfold rounds; lia).
  cbn [Compile_loop]. unfold bind, curTokenIs, gets.
  rewrite bool_decide_eq_false_2 by done. by rewrite Hs.
Qed.

End Scan.


(** ** Statements in a program *)

Lemma byte_small r : 0 <= r <= 15 -> byte r = r.
Proof. intros Hr. unfold byte. apply Z.mod_small. lia. Qed.

Lemma Compile_scan_eq op p q :
  Compile_scan op p = Compile_scan op q -> Compile op p = Compile op q.
Proof. intros H. unfold Compile, bind. by rewrite H. Qed.

(** The primitives on a stream. *)

Lemma expectPeek_stream k t1 t2 ts bc lb fx out :
  token.Type_ t2 = k ->
  expectPeek k (stream (t1 :: t2 :: ts) bc lb fx out)
  = Ok true (stream (t2 :: ts) bc lb fx out).
Proof.
  intros Hk. rewrite expectPeek_run by exact Hk. by rewrite advance_stream.
Qed.

Lemma nextToken_stream t ts bc lb fx out :
  nextToken (stream (t :: ts) bc lb fx out) = Ok tt (stream ts bc lb fx out).
Proof. unfold nextToken, modify. by rewrite advance_stream. Qed.

Lemma curLiteral_stream t ts bc lb fx out :
  curLiteral (stream (t :: ts) bc lb fx out)
  = Ok (token.Literal t) (stream (t :: ts) bc lb fx out).
Proof. reflexivity. Qed.

Lemma curType_stream t ts bc lb fx out :
  curType (stream (t :: ts) bc lb fx out)
  = Ok (token.Type_ t) (stream (t :: ts) bc lb fx out).
Proof. reflexivity. Qed.

Lemma curToken_stream t ts bc lb fx out :
  gets curToken (stream (t :: ts) bc lb fx out)
  = Ok t (stream (t :: ts) bc lb fx out).
Proof. reflexivity. Qed.

Lemma append_stream b ts bc lb fx out :
  append b (stream ts bc lb fx out) = Ok tt (stream ts (bc ++ [b]) lb fx out).
Proof. reflexivity. Qed.

Lemma append_all_stream bs ts bc lb fx out :
  append_all bs (stream ts bc lb fx out)
  = Ok tt (stream ts (bc ++ bs) lb fx out).
Proof. by rewrite append_all_run. Qed.

Lemma set_fixup_stream name ts bc lb fx out :
  modify (set_fixup name) (stream ts bc lb fx out)
  = Ok tt (stream ts bc lb (<[Z.of_nat (length bc) := name]> fx) out).
Proof. reflexivity. Qed.

Lemma set_label_stream name ts bc lb fx out :
  modify (set_label name) (stream ts bc lb fx out)
  = Ok tt (stream ts bc (<[name := Z.of_nat (length bc)]> lb) fx out).
Proof. reflexivity. Qed.

Lemma Printf_stream m ts bc lb fx out :
  Printf m (stream ts bc lb fx out) = Ok tt (stream ts bc lb fx (out ++ [m])).
Proof. reflexivity. Qed.

(** Running an encoder on a stream whose first tokens are written out. *)
Ltac encoders :=
  unfold exitOp, incOp, decOp, randOp, retOp, callOp, isIntOp, isStrOp,
    str2IntOp, int2StrOp, systemOp, cmpOp, concatOp, jumpOp, trapOp,
    memcpyOp, nopOp, peekOp, pokeOp, pushOp, popOp, storeOp, printInt,
    printString, mathOperation.

Ltac tokens := cbn [token.Type_ token.Literal tk negb fst snd].

Ltac on_stream :=
  lazymatch goal with
  | |- expectPeek _ _ = _ => apply expectPeek_stream; reflexivity
  | |- nextToken _ = _ => apply nextToken_stream
  | |- curLiteral _ = _ => apply curLiteral_stream
  | |- curType _ = _ => apply curType_stream
  | |- gets curToken _ = _ => apply curToken_stream
  | |- append _ _ = _ => apply append_stream
  | |- append_all _ _ = _ => apply append_all_stream
  | |- modify (set_fixup _) _ = _ => apply set_fixup_stream
  | |- modify (set_label _) _ = _ => apply set_label_stream
  | |- Printf _ _ = _ => apply Printf_stream
  | |- getRegister _ _ = _ =>
      apply getRegister_run; [eassumption | assumption]
  | |- bind ?m ?f ?p = _ =>
      erewrite (bind_run m f p) by on_stream; cbv beta; tokens; on_stream
  end.

Ltac stepping :=
  repeat
    lazymatch goal with
    | |- bind ?m ?f ?p = _ =>
        erewrite (bind_run m f p) by on_stream; cbv beta; tokens
    | |- (if bool_decide (?a = ?a) then _ else _) _ = _ =>
        rewrite (bool_decide_eq_true_2 (a = a)) by reflexivity; tokens
    | |- (if negb (bool_decide (?a = ?a)) then _ else _) _ = _ =>
        rewrite (bool_decide_eq_true_2 (a = a)) by reflexivity; tokens
    | |- (if bool_decide (_ = _) then _ else _) _ = _ =>
        rewrite bool_decide_eq_false_2 by discriminate; tokens
    | |- (if negb (bool_decide (_ = _)) then _ else _) _ = _ =>
        rewrite bool_decide_eq_false_2 by discriminate; tokens
    | H : isRegister ?s = _ |- (if isRegister ?s then _ else _) _ = _ =>
        rewrite H
    end.

(** The buffer as one list, the registers as they are. *)
Ltac buffer :=
  repeat match goal with
    | H : 0 <= ?r <= 15 |- _ => rewrite (byte_small r H)
    end;
  rewrite <- ?app_assoc; reflexivity.

Ltac encoded :=
  encoders; stepping; etransitivity; [on_stream | f_equal; buffer].

(** The [switch] of [Compile] on a stream: the encoder of the first
    token. *)
Ltac switch :=
  unfold Compile_switch; erewrite bind_run by apply curToken_stream;
  cbv beta; tokens.

(** The opcode of a statement that takes one register. *)
Definition unary_opcode (op : opcode.table) (t : TokenType) : option Z :=
  match t with
  | token.INC => Some (opcode.INC_OP op)
  | token.DEC => Some (opcode.DEC_OP op)
  | token.RANDOM => Some (opcode.INT_RANDOM op)
  | token.IS_INTEGER => Some (opcode.IS_INTEGER op)
  | token.IS_STRING => Some (opcode.IS_STRING op)
  | token.STRING2INT => Some (opcode.STRING_TOINT op)
  | token.INT2STRING => Some (opcode.INT_TOSTRING op)
  | token.SYSTEM => Some (opcode.STRING_SYSTEM op)
  | token.PUSH => Some (opcode.STACK_PUSH op)
  | token.POP => Some (opcode.STACK_POP op)
  | token.PRINT_INT => Some (opcode.INT_PRINT op)
  | token.PRINT_STR => Some (opcode.STRING_PRINT op)
  | _ => None
  end.

(** The opcode of a statement that takes two registers. *)
Definition binary_opcode (op : opcode.table) (t : TokenType) : option Z :=
  match t with
  | token.PEEK => Some (opcode.PEEK op)
  | token.POKE => Some (opcode.POKE op)
  | _ => None
  end.

(** The opcode of a statement that takes three registers. *)
Definition ternary_opcode (op : opcode.table) (t : TokenType) : option Z :=
  match t with
  | token.ADD => Some (opcode.ADD_OP op)
  | token.XOR => Some (opcode.XOR_OP op)
  | token.SUB => Some (opcode.SUB_OP op)
  | token.MUL => Some (opcode.MUL_OP op)
  | token.DIV => Some (opcode.DIV_OP op)
  | token.AND => Some (opcode.AND_OP op)
  | token.OR => Some (opcode.OR_OP op)
  | token.MEMCPY => Some (opcode.MEMCPY op)
  | token.CONCAT => Some (opcode.STRING_CONCAT op)
  | _ => None
  end.

(** The opcode of a statement without operands. *)
Definition nullary_opcode (op : opcode.table) (t : TokenType) : option Z :=
  match t with
  | token.EXIT => Some (opcode.EXIT op)
  | token.RET => Some (opcode.STACK_RET op)
  | token.NOP => Some (opcode.NOP_OP op)
  | _ => None
  end.

(** The opcode of a jump or a call. *)
Definition branch_opcode (op : opcode.table) (t : TokenType) : option Z :=
  match t with
  | token.GOTO => Some (opcode.JUMP_TO op)
  | token.JMP => Some (opcode.JUMP_TO op)
  | token.JMPZ => Some (opcode.JUMP_Z op)
  | token.JMPNZ => Some (opcode.JUMP_NZ op)
  | token.CALL => Some (opcode.STACK_CALL op)
  | _ => None
  end.

(** The opcode of [store] and [cmp] with a register for operand. *)
Definition register_opcode (op : opcode.table) (t : TokenType) : option Z :=
  match t with
  | token.STORE => Some (opcode.REG_STORE op)
  | token.CMP => Some (opcode.CMP_REG op)
  | _ => None
  end.

(** The opcode of [store] and [cmp] with a label for operand. *)
Definition address_opcode (op : opcode.table) (t : TokenType) : option Z :=
  match t with
  | token.STORE => Some (opcode.INT_STORE op)
  | token.CMP => Some (opcode.CMP_IMMEDIATE op)
  | _ => None
  end.

Section Programs.

Variable op : opcode.table.

(** *** Statements without operands *)

Lemma nullary_step t s o rest bc lb fx out :
  nullary_opcode op t = Some o ->
  Compile op (stream (tk t s :: rest) bc lb fx out)
  = Compile op (stream rest (bc ++ [byte o]) lb fx out).
Proof.
  intros Ho.
  destruct t; try discriminate Ho; injection Ho as <-;
    (apply Compile_scan_eq; eapply scan_step;
     [ cbn; discriminate | reflexivity | apply advance_stream ]).
Qed.

(** *** Statements with registers *)

Lemma unary_run t s o rlit reg rest bc lb fx out :
  unary_opcode op t = Some o ->
  is_register rlit reg ->
  Compile_switch op (stream (tk t s :: tk token.IDENT rlit :: rest)
                       bc lb fx out)
  = Ok tt (stream (tk token.IDENT rlit :: rest)
             (bc ++ [byte o; reg]) lb fx out).
Proof.
  intros Ho [Ha Hr].
  destruct t; try discriminate Ho; injection Ho as <-;
    switch; encoded.
Qed.

(** X2.  A statement that takes one register ([inc], [dec], [rand],
    [is_integer], [is_string], [string2int], [int2string], [system],
    [push], [pop], [print_int], [print_str]) anywhere in a program: the
    opcode and the number of the register are appended; labels, references
    and output are left alone, and compilation goes on with what follows. *)
Theorem unary_statement t s o rlit reg rest bc lb fx out :
  unary_opcode op t = Some o ->
  is_register rlit reg ->
  Compile op (stream (tk t s :: tk token.IDENT rlit :: rest) bc lb fx out)
  = Compile op (stream rest (bc ++ [byte o; reg]) lb fx out).
Proof.
  intros Ho Hr. apply Compile_scan_eq. eapply scan_step.
  - destruct t; try discriminate Ho; cbn; discriminate.
  - by apply unary_run.
  - apply advance_stream.
Qed.

Lemma binary_run t s o alit a c blit b rest bc lb fx out :
  binary_opcode op t = Some o ->
  is_register alit a -> is_register blit b ->
  Compile_switch op (stream (tk t s :: tk token.IDENT alit :: tk token.COMMA c
                               :: tk token.IDENT blit :: rest) bc lb fx out)
  = Ok tt (stream (tk token.IDENT blit :: rest)
             (bc ++ [byte o; a; b]) lb fx out).
Proof.
  intros Ho [Ha Hra] [Hb Hrb].
  destruct t; try discriminate Ho; injection Ho as <-; switch; encoded.
Qed.

(** X3.  [peek] and [poke] with two registers and a comma between them,
    anywhere in a program: the opcode and the two register numbers are
    appended, and compilation goes on with what follows. *)
Theorem binary_statement t s o alit a c blit b rest bc lb fx out :
  binary_opcode op t = Some o ->
  is_register alit a -> is_register blit b ->
  Compile op (stream (tk t s :: tk token.IDENT alit :: tk token.COMMA c
                        :: tk token.IDENT blit :: rest) bc lb fx out)
  = Compile op (stream rest (bc ++ [byte o; a; b]) lb fx out).
Proof.
  intros Ho Ha Hb. apply Compile_scan_eq. eapply scan_step.
  - destruct t; try discriminate Ho; cbn; discriminate.
  - by apply binary_run.
  - apply advance_stream.
Qed.

Lemma mathOperation_run operation t0 alit a c1 blit b c2 clit c rest
    bc lb fx out :
  is_register alit a -> is_register blit b -> is_register clit c ->
  mathOperation operation
    (stream (t0 :: tk token.IDENT alit :: tk token.COMMA c1
               :: tk token.IDENT blit :: tk token.COMMA c2
               :: tk token.IDENT clit :: rest) bc lb fx out)
  = Ok tt (stream (tk token.IDENT clit :: rest)
             (bc ++ [byte operation; a; b; c]) lb fx out).
Proof. intros [Ha Hra] [Hb Hrb] [Hc Hrc]. encoded. Qed.

Lemma memcpyOp_run t0 alit a c1 blit b c2 clit c rest bc lb fx out :
  is_register alit a -> is_register blit b -> is_register clit c ->
  memcpyOp op
    (stream (t0 :: tk token.IDENT alit :: tk token.COMMA c1
               :: tk token.IDENT blit :: tk token.COMMA c2
               :: tk token.IDENT clit :: rest) bc lb fx out)
  = Ok tt (stream (tk token.IDENT clit :: rest)
             (bc ++ [byte (opcode.MEMCPY op); a; b; c]) lb fx out).
Proof. intros [Ha Hra] [Hb Hrb] [Hc Hrc]. encoded. Qed.

Lemma concatOp_run t0 alit a c1 blit b c2 clit c rest bc lb fx out :
  is_register alit a -> is_register blit b -> is_register clit c ->
  concatOp op
    (stream (t0 :: tk token.IDENT alit :: tk token.COMMA c1
               :: tk token.IDENT blit :: tk token.COMMA c2
               :: tk token.IDENT clit :: rest) bc lb fx out)
  = Ok tt (stream (tk token.IDENT clit :: rest)
             (bc ++ [byte (opcode.STRING_CONCAT op); a; b; c]) lb fx out).
Proof. intros [Ha Hra] [Hb Hrb] [Hc Hrc]. encoded. Qed.

(** X4.  The arithmetic statements ([add], [xor], [sub], [mul], [div],
    [and], [or]), [memcpy] and [concat] with three registers and commas
    between them, anywhere in a program: the opcode and the three register
    numbers are appended, and compilation goes on with what follows. *)
Theorem ternary_statement t s o alit a c1 blit b c2 clit c rest
    bc lb fx out :
  ternary_opcode op t = Some o ->
  is_register alit a -> is_register blit b -> is_register clit c ->
  Compile op (stream (tk t s :: tk token.IDENT alit :: tk token.COMMA c1
                        :: tk token.IDENT blit :: tk token.COMMA c2
                        :: tk token.IDENT clit :: rest) bc lb fx out)
  = Compile op (stream rest (bc ++ [byte o; a; b; c]) lb fx out).
Proof.
  intros Ho Ha Hb Hc. apply Compile_scan_eq.
  destruct t; try discriminate Ho; injection Ho as <-;
    (eapply scan_step;
     [ cbn; discriminate
     | switch;
       lazymatch goal with
       | |- mathOperation _ _ = _ => apply mathOperation_run
       | |- memcpyOp _ _ = _ => apply memcpyOp_run
       | |- concatOp _ _ = _ => apply concatOp_run
       end; eassumption
     | apply advance_stream ]).
Qed.


(** *** Register and label operands *)

Lemma stream_eq ts bc bc' lb fx fx' out :
  bc = bc' -> fx = fx' ->
  stream ts bc lb fx out = stream ts bc' lb fx' out.
Proof. by intros -> ->. Qed.

(** The end of an encoder that has registered a reference. *)
Ltac registered :=
  encoders; stepping; etransitivity; [on_stream|];
  apply (f_equal (Ok tt)); apply stream_eq;
  [ buffer
  | f_equal; rewrite ?length_app; cbn [length]; lia ].

Lemma storeOp_register_run t0 alit a c blit b rest bc lb fx out :
  is_register alit a -> isRegister blit = true -> is_register blit b ->
  storeOp op (stream (t0 :: tk token.IDENT alit :: tk token.COMMA c
                        :: tk token.IDENT blit :: rest) bc lb fx out)
  = Ok tt (stream (tk token.IDENT blit :: rest)
             (bc ++ [byte (opcode.REG_STORE op); a; b]) lb fx out).
Proof. intros [Ha Hra] Hreg [Hb Hrb]. encoded. Qed.

Lemma cmpOp_register_run t0 alit a c blit b rest bc lb fx out :
  is_register alit a -> isRegister blit = true -> is_register blit b ->
  cmpOp op (stream (t0 :: tk token.IDENT alit :: tk token.COMMA c
                      :: tk token.IDENT blit :: rest) bc lb fx out)
  = Ok tt (stream (tk token.IDENT blit :: rest)
             (bc ++ [byte (opcode.CMP_REG op); a; b]) lb fx out).
Proof. intros [Ha Hra] Hreg [Hb Hrb]. encoded. Qed.

Lemma storeOp_label_run t0 alit a c name rest bc lb fx out :
  is_register alit a -> isRegister name = false ->
  storeOp op (stream (t0 :: tk token.IDENT alit :: tk token.COMMA c
                        :: tk token.IDENT name :: rest) bc lb fx out)
  = Ok tt (stream (tk token.IDENT name :: rest)
             (bc ++ [byte (opcode.INT_STORE op); a; 0; 0]) lb
             (<[Z.of_nat (length bc) + 2 := name]> fx) out).
Proof. intros [Ha Hra] Hreg. registered. Qed.

Lemma cmpOp_label_run t0 alit a c name rest bc lb fx out :
  is_register alit a -> isRegister name = false ->
  cmpOp op (stream (t0 :: tk token.IDENT alit :: tk token.COMMA c
                      :: tk token.IDENT name :: rest) bc lb fx out)
  = Ok tt (stream (tk token.IDENT name :: rest)
             (bc ++ [byte (opcode.CMP_IMMEDIATE op); a; 0; 0]) lb
             (<[Z.of_nat (length bc) + 2 := name]> fx) out).
Proof. intros [Ha Hra] Hreg. registered. Qed.

Lemma jumpOp_label_run operator t0 name rest bc lb fx out :
  jumpOp operator (stream (t0 :: tk token.IDENT name :: rest) bc lb fx out)
  = Ok tt (stream (tk token.IDENT name :: rest)
             (bc ++ [byte operator; 0; 0]) lb
             (<[Z.of_nat (length bc) + 1 := name]> fx) out).
Proof. registered. Qed.

Lemma callOp_label_run t0 name rest bc lb fx out :
  callOp op (stream (t0 :: tk token.IDENT name :: rest) bc lb fx out)
  = Ok tt (stream (tk token.IDENT name :: rest)
             (bc ++ [byte (opcode.STACK_CALL op); 0; 0]) lb
             (<[Z.of_nat (length bc) + 1 := name]> fx) out).
Proof. registered. Qed.

(** X5.  [store] and [cmp] whose second operand is a register (an
    identifier that begins with the hash sign), anywhere in a program: the
    opcode for a register operand and the two register numbers are
    appended. *)
Theorem register_operand_statement t s o alit a c blit b rest bc lb fx out :
  register_opcode op t = Some o ->
  is_register alit a -> isRegister blit = true -> is_register blit b ->
  Compile op (stream (tk t s :: tk token.IDENT alit :: tk token.COMMA c
                        :: tk token.IDENT blit :: rest) bc lb fx out)
  = Compile op (stream rest (bc ++ [byte o; a; b]) lb fx out).
Proof.
  intros Ho Ha Hreg Hb. apply Compile_scan_eq.
  destruct t; try discriminate Ho; injection Ho as <-;
    (eapply scan_step;
     [ cbn; discriminate
     | switch;
       lazymatch goal with
       | |- storeOp _ _ = _ => apply storeOp_register_run
       | |- cmpOp _ _ = _ => apply cmpOp_register_run
       end; eassumption
     | apply advance_stream ]).
Qed.

(** X6.  [store] and [cmp] whose second operand is an identifier that is
    no register, anywhere in a program: the opcode for an integer operand,
    the register and two zero bytes are appended, and the identifier is
    registered as a reference at the offset of the first of the two zero
    bytes. *)
Theorem label_operand_statement t s o alit a c name rest bc lb fx out :
  address_opcode op t = Some o ->
  is_register alit a -> isRegister name = false ->
  Compile op (stream (tk t s :: tk token.IDENT alit :: tk token.COMMA c
                        :: tk token.IDENT name :: rest) bc lb fx out)
  = Compile op (stream rest (bc ++ [byte o; a; 0; 0]) lb
                  (<[Z.of_nat (length bc) + 2 := name]> fx) out).
Proof.
  intros Ho Ha Hreg. apply Compile_scan_eq.
  destruct t; try discriminate Ho; injection Ho as <-;
    (eapply scan_step;
     [ cbn; discriminate
     | switch;
       lazymatch goal with
       | |- storeOp _ _ = _ => apply storeOp_label_run
       | |- cmpOp _ _ = _ => apply cmpOp_label_run
       end; eassumption
     | apply advance_stream ]).
Qed.

Lemma branch_label_run t s o name rest bc lb fx out :
  branch_opcode op t = Some o ->
  Compile op (stream (tk t s :: tk token.IDENT name :: rest) bc lb fx out)
  = Compile op (stream rest (bc ++ [byte o; 0; 0]) lb
                  (<[Z.of_nat (length bc) + 1 := name]> fx) out).
Proof.
  intros Ho. apply Compile_scan_eq.
  destruct t; try discriminate Ho; injection Ho as <-;
    (eapply scan_step;
     [ cbn; discriminate
     | switch;
       lazymatch goal with
       | |- jumpOp _ _ = _ => apply jumpOp_label_run
       | |- callOp _ _ = _ => apply callOp_label_run
       end
     | apply advance_stream ]).
Qed.

(** *** Labels *)

Lemma label_run lit rest bc lb fx out :
  Compile op (stream (tk token.LABEL lit :: rest) bc lb fx out)
  = Compile op (stream rest bc
                  (<[TrimPrefix lit ":" := Z.of_nat (length bc)]> lb) fx out).
Proof.
  apply Compile_scan_eq. eapply scan_step.
  - cbn; discriminate.
  - switch. apply set_label_stream.
  - apply advance_stream.
Qed.


(** *** Tokens that begin no statement *)

(** An identifier, a literal or a comma where a statement should begin. *)
Definition stray (t : Token) : Prop :=
  token.Type_ t = token.IDENT \/ token.Type_ t = token.INT \/
  token.Type_ t = token.STRING \/ token.Type_ t = token.COMMA.

Lemma stray_statement t rest bc lb fx out :
  stray t ->
  Compile op (stream (t :: rest) bc lb fx out)
  = Compile op (stream rest bc lb fx (out ++ [UnhandledToken t])).
Proof.
  intros Ht. apply Compile_scan_eq.
  destruct Ht as [Hk|[Hk|[Hk|Hk]]];
    (eapply scan_step;
     [ cbn [stream curToken nth]; rewrite Hk; discriminate
     | unfold Compile_switch; erewrite bind_run by apply curToken_stream;
       cbv beta; rewrite Hk; apply Printf_stream
     | apply advance_stream ]).
Qed.

(** X12.  Tokens that begin no statement (identifiers, literals, commas)
    where a statement should begin: each is reported as unhandled and
    skipped, in order; no byte is emitted, and compilation goes on with what
    follows. *)
Theorem stray_tokens_skipped ts rest bc lb fx out :
  Forall stray ts ->
  Compile op (stream (ts ++ rest) bc lb fx out)
  = Compile op (stream rest bc lb fx (out ++ map UnhandledToken ts)).
Proof.
  intros Hts. revert out.
  induction Hts as [|t ts Ht _ IH]; intros out; cbn [app map].
  - by rewrite app_nil_r.
  - rewrite stray_statement by done. rewrite IH. by rewrite <- app_assoc.
Qed.

(** *** The end of the program *)

Lemma Compile_end bc lb out :
  Compile op (stream [] bc lb ∅ out) = Ok tt (stream [] bc lb ∅ out).
Proof.
  unfold Compile, bind. rewrite scan_done by reflexivity.
  unfold gets. cbn [fixups stream]. by rewrite map_to_list_empty.
Qed.

(** *** Data *)

(** The tokens of the integers after the first: a comma and an integer
    literal each. *)
Definition more_data (more : list (string * string)) : list Token :=
  flat_map (fun cl => [tk token.COMMA cl.1; tk token.INT cl.2]) more.

(** The last token of a list of data. *)
Definition last_data (first : Token) (more : list (string * string))
  : Token :=
  default first (last (map (fun cl => tk token.INT cl.2) more)).

Lemma last_data_cons first c lit more :
  last_data first ((c, lit) :: more) = last_data (tk token.INT lit) more.
Proof.
  unfold last_data. cbn [map]. rewrite last_cons.
  by destruct (last _).
Qed.

Definition data_byte (lit : string) : Z := byte (strconv.ParseInt lit 0).1.

Lemma dataOp_loop_run more rest lb fx out :
  token.Type_ (nth 0 rest eof) <> token.COMMA ->
  forall cur bc n,
    (length more <= n)%nat ->
    dataOp_loop n (stream (cur :: more_data more ++ rest) bc lb fx out)
    = Ok tt (stream (last_data cur more :: rest)
               (bc ++ map (fun cl => data_byte cl.2) more) lb fx out).
Proof.
  intros Hrest. induction more as [|[c lit] more IH]; intros cur bc n Hn.
  - cbn [more_data flat_map app map]. rewrite app_nil_r.
    change (last_data cur []) with cur.
    destruct n; cbn [dataOp_loop]; unfold bind, peekTokenIs, gets;
      by rewrite bool_decide_eq_false_2.
  - destruct n as [|n]; [cbn in Hn; lia|].
    cbn [dataOp_loop more_data flat_map app].
    unfold bind at 1. unfold peekTokenIs, gets.
    rewrite bool_decide_eq_true_2 by reflexivity. cbn [negb].
    stepping. fold (more_data more). fold (data_byte lit). rewrite IH by (cbn in Hn; lia).
    rewrite last_data_cons. cbn [map]. by rewrite <- app_assoc.
Qed.


Lemma length_more_data more :
  length (more_data more) = (2 * length more)%nat.
Proof.
  induction more as [|cl more IH]; [done|].
  cbn [more_data flat_map app length] in *. fold (more_data more).
  rewrite IH. lia.
Qed.

(** [db] and [data]. *)
Definition is_data (t : TokenType) : Prop := t = token.DB \/ t = token.DATA.

Lemma dataOp_string_run t0 lit rest bc lb fx out :
  dataOp (stream (t0 :: tk token.STRING lit :: rest) bc lb fx out)
  = Ok tt (stream (tk token.STRING lit :: rest)
             (bc ++ bytes_of_string lit) lb fx out).
Proof. unfold dataOp. stepping. apply append_all_stream. Qed.

Lemma dataOp_integers_run t0 first more rest bc lb fx out :
  token.Type_ first <> token.STRING ->
  token.Type_ (nth 0 rest eof) <> token.COMMA ->
  dataOp (stream (t0 :: first :: more_data more ++ rest) bc lb fx out)
  = Ok tt (stream (last_data first more :: rest)
             (bc ++ data_byte (token.Literal first)
                 :: map (fun cl => data_byte cl.2) more) lb fx out).
Proof.
  intros Hfirst Hrest. unfold dataOp. stepping.
  rewrite bool_decide_eq_false_2 by exact Hfirst. stepping.
  erewrite bind_run by reflexivity. cbv beta.
  rewrite dataOp_loop_run; [|exact Hrest|].
  - by rewrite <- app_assoc.
  - cbn [l stream]. rewrite length_drop. cbn [length].
    rewrite length_app, length_more_data. cbn [length]. lia.
Qed.

(** X13.  [DB] or [DATA] with a string literal, anywhere in a program: the
    bytes of the string are appended, with no opcode and no length. *)
Theorem data_string_statement t s lit rest bc lb fx out :
  is_data t ->
  Compile op (stream (tk t s :: tk token.STRING lit :: rest) bc lb fx out)
  = Compile op (stream rest (bc ++ bytes_of_string lit) lb fx out).
Proof.
  intros Ht. apply Compile_scan_eq.
  destruct Ht as [-> | ->];
    (eapply scan_step;
     [ cbn; discriminate
     | switch; apply dataOp_string_run
     | apply advance_stream ]).
Qed.

(** X14.  [DB] or [DATA] with a list of integers separated by commas,
    anywhere in a program: one byte for each, the low byte of what
    [strconv.ParseInt] makes of the literal, in order.  The list ends at the
    first token after an integer that is no comma; the first element is
    taken as an integer whatever token it is, unless it is a string. *)
Theorem data_integers_statement t s first more rest bc lb fx out :
  is_data t ->
  token.Type_ first <> token.STRING ->
  token.Type_ (nth 0 rest eof) <> token.COMMA ->
  Compile op (stream (tk t s :: first :: more_data more ++ rest)
                bc lb fx out)
  = Compile op (stream rest
                  (bc ++ data_byte (token.Literal first)
                      :: map (fun cl => data_byte cl.2) more) lb fx out).
Proof.
  intros Ht Hfirst Hrest. apply Compile_scan_eq.
  destruct Ht as [-> | ->];
    (eapply scan_step;
     [ cbn; discriminate
     | switch; by apply dataOp_integers_run
     | apply advance_stream ]).
Qed.

Lemma bind_exit {A B} (m : M A) (f : A -> M B) p c o :
  m p = Exit c o -> bind m f p = Exit c o.
Proof. unfold bind. by intros ->. Qed.

Lemma dataOp_loop_exit c rest lb fx out more :
  token.Type_ (nth 0 rest eof) <> token.INT ->
  forall cur bc n,
    (length more < n)%nat ->
    dataOp_loop n
      (stream (cur :: more_data more ++ tk token.COMMA c :: rest)
         bc lb fx out)
    = Exit 1 (out ++ [ExpectedNext token.INT token.COMMA]).
Proof.
  intros Hrest. induction more as [|[c' lit] more IH]; intros cur bc n Hn.
  - destruct n as [|n]; [cbn in Hn; lia|].
    cbn [dataOp_loop more_data flat_map app].
    unfold bind at 1. unfold peekTokenIs, gets.
    rewrite bool_decide_eq_true_2 by reflexivity. cbn [negb].
    erewrite bind_run by on_stream. cbv beta.
    apply bind_exit.
    unfold expectPeek, bind, peekTokenIs, gets.
    rewrite bool_decide_eq_false_2 by exact Hrest. reflexivity.
  - destruct n as [|n]; [cbn in Hn; lia|].
    cbn [dataOp_loop more_data flat_map app].
    unfold bind at 1. unfold peekTokenIs, gets.
    rewrite bool_decide_eq_true_2 by reflexivity. cbn [negb].
    stepping. fold (more_data more). apply IH. cbn in Hn. lia.
Qed.

(** X15.  A list of data that ends in a comma with no integer after it:
    the compiler prints that it expected an integer, naming the kind of the
    comma as the one it got, and exits with status 1. *)
Theorem data_dangling_comma_exits t s first more c rest bc lb fx out :
  is_data t ->
  token.Type_ first <> token.STRING ->
  token.Type_ (nth 0 rest eof) <> token.INT ->
  Compile op (stream (tk t s :: first :: more_data more
                        ++ tk token.COMMA c :: rest) bc lb fx out)
  = Exit 1 (out ++ [ExpectedNext token.INT token.COMMA]).
Proof.
  intros Ht Hfirst Hrest. unfold Compile. apply bind_exit.
  assert (dataOp (stream (tk t s :: first :: more_data more
                            ++ tk token.COMMA c :: rest) bc lb fx out)
          = Exit 1 (out ++ [ExpectedNext token.INT token.COMMA])) as Hd.
  { unfold dataOp. stepping.
    rewrite bool_decide_eq_false_2 by exact Hfirst. stepping.
    erewrite bind_run by reflexivity. cbv beta.
    apply dataOp_loop_exit; [exact Hrest|].
    cbn [l stream]. rewrite length_drop. cbn [length].
    rewrite length_app, length_more_data. cbn [length]. lia. }
  destruct Ht as [-> | ->];
    (apply scan_exit; [cbn; discriminate | switch; exact Hd]).
Qed.


(** *** Whole programs *)

(** The bytes of a run of statements without operands. *)
Definition nullary_bytes (body : list Token) : list Z :=
  flat_map (fun t => match nullary_opcode op (token.Type_ t) with
                     | Some o => [byte o]
                     | None => []
                     end) body.

Definition nullary (t : Token) : Prop :=
  is_Some (nullary_opcode op (token.Type_ t)).

Lemma length_nullary_bytes body :
  Forall nullary body -> length (nullary_bytes body) = length body.
Proof.
  induction 1 as [|t body [o Ho] _ IH]; [done|].
  cbn [nullary_bytes flat_map]. rewrite Ho. cbn. fold (nullary_bytes body).
  by rewrite IH.
Qed.

Lemma nullary_run body rest bc lb fx out :
  Forall nullary body ->
  Compile op (stream (body ++ rest) bc lb fx out)
  = Compile op (stream rest (bc ++ nullary_bytes body) lb fx out).
Proof.
  intros Hb. revert bc.
  induction Hb as [|[t s] body [o Ho] _ IH]; intros bc.
  - cbn. by rewrite app_nil_r.
  - cbn [app nullary_bytes flat_map token.Type_] in *. rewrite Ho.
    fold (nullary_bytes body).
    rewrite (nullary_step t s o) by exact Ho.
    rewrite IH. by rewrite <- app_assoc.
Qed.

Lemma nullary_run_end body bc lb fx out :
  Forall nullary body ->
  Compile op (stream body bc lb fx out)
  = Compile op (stream [] (bc ++ nullary_bytes body) lb fx out).
Proof.
  intros Hb. rewrite <- (app_nil_r body) at 1. by apply nullary_run.
Qed.

(** The pass over one reference, at the end of the program. *)
Lemma Compile_end_reference bc lb addr name out :
  0 <= addr -> addr + 2 <= Z.of_nat (length bc) ->
  Compile op (stream [] bc lb {[addr := name]} out)
  = Ok tt (patched addr name (stream [] bc lb {[addr := name]} out)).
Proof.
  intros H0 H2. unfold Compile, bind. rewrite scan_done by reflexivity.
  unfold gets. cbn [fixups stream]. rewrite map_to_list_singleton.
  cbn [Compile_fixups]. unfold bind. rewrite fixup_run by (split; cbn; lia).
  reflexivity.
Qed.

End Programs.

Lemma substring_all s : substring 0 (String.length s) s = s.
Proof. induction s as [|c s IH]; [done|]. cbn. by rewrite IH. Qed.

(** A label is known by its text without the colon in front. *)
Lemma TrimPrefix_colon name : TrimPrefix (":" +:+ name) ":" = name.
Proof.
  change (":" +:+ name) with (String ":" name).
  unfold TrimPrefix, HasPrefix. cbn. rewrite Nat.sub_0_r.
  destruct name; [done|]. apply substring_all.
Qed.

(** X16.  A jump or a call to a label that is defined further on, with
    statements without operands in between and after: the two bytes after
    the opcode are those of the offset of the first byte after the label,
    and nothing is printed. *)
Theorem forward_reference_program op t s o name body tail :
  branch_opcode op t = Some o ->
  Forall (nullary op) body -> Forall (nullary op) tail ->
  let target := 3 + Z.of_nat (length body) in
  exists p,
    Compile op (New (tk t s :: tk token.IDENT name :: body
                       ++ tk token.LABEL (":" +:+ name) :: tail))
    = Ok tt p /\
    bytecode p = [byte o; low_byte target; high_byte target]
                   ++ nullary_bytes op body ++ nullary_bytes op tail /\
    labels p !! name = Some target /\
    stdout p = [].
Proof.
  intros Ho Hbody Htail target. rewrite New_stream.
  rewrite (branch_label_run op t s o) by exact Ho.
  rewrite nullary_run by exact Hbody.
  rewrite label_run, TrimPrefix_colon.
  rewrite nullary_run_end by exact Htail.
  assert (Z.of_nat (length (([] ++ [byte o; 0; 0]) ++ nullary_bytes op body))
          = target) as Hlen.
  { rewrite length_app, length_nullary_bytes by exact Hbody.
    cbn [app length]. unfold target. lia. }
  rewrite Hlen. cbn [app length]. change (Z.of_nat 0 + 1) with 1.
  rewrite !insert_empty. rewrite Compile_end_reference.
  - eexists. split; [reflexivity|].
    assert (resolve (stream []
                       (byte o :: 0 :: 0
                          :: nullary_bytes op body ++ nullary_bytes op tail)
                       {[name := target]} {[1 := name]} []) name = target)
      as Hres by (unfold resolve; cbn; by rewrite lookup_singleton_eq).
    repeat split.
    + cbn [bytecode patched]. rewrite Hres. reflexivity.
    + cbn [labels patched stream]. apply lookup_singleton_eq.
    + cbn [stdout patched stream]. unfold warning. rewrite Hres.
      destruct (target =? 0) eqn:E; [|done].
      apply Z.eqb_eq in E. unfold target in E. lia.
  - lia.
  - cbn [length]. lia.
Qed.


(** X17.  A jump or a call to a label that was defined before, with statements
    without operands around: the two bytes after the opcode are those of
    the offset of the label.  A label at offset 0 is resolved like any
    other, and is reported as possibly undefined all the same. *)
Theorem backward_reference_program op t s o name body mid tail :
  branch_opcode op t = Some o ->
  Forall (nullary op) body -> Forall (nullary op) mid ->
  Forall (nullary op) tail ->
  let target := Z.of_nat (length body) in
  exists p,
    Compile op (New (body ++ tk token.LABEL (":" +:+ name) :: mid
                       ++ tk t s :: tk token.IDENT name :: tail))
    = Ok tt p /\
    bytecode p = nullary_bytes op body ++ nullary_bytes op mid
                   ++ [byte o; low_byte target; high_byte target]
                   ++ nullary_bytes op tail /\
    labels p !! name = Some target /\
    stdout p = if target =? 0 then [UndefinedLabel name] else [].
Proof.
  intros Ho Hbody Hmid Htail target. rewrite New_stream.
  rewrite nullary_run by exact Hbody.
  rewrite label_run, TrimPrefix_colon.
  rewrite nullary_run by exact Hmid.
  rewrite (branch_label_run op t s o) by exact Ho.
  rewrite nullary_run_end by exact Htail.
  cbn [app]. rewrite !insert_empty.
  rewrite length_nullary_bytes by exact Hbody. fold target.
  set (bc := ((nullary_bytes op body ++ nullary_bytes op mid)
                ++ [byte o; 0; 0]) ++ nullary_bytes op tail).
  set (addr := Z.of_nat (length (nullary_bytes op body
                                   ++ nullary_bytes op mid)) + 1).
  assert (Z.to_nat addr
          = (length (nullary_bytes op body ++ nullary_bytes op mid) + 1)%nat)
    as Haddr by (unfold addr; lia).
  assert (Z.to_nat (addr + 1)
          = (length (nullary_bytes op body ++ nullary_bytes op mid) + 2)%nat)
    as Haddr1 by (unfold addr; lia).
  rewrite Compile_end_reference.
  - eexists. split; [reflexivity|].
    assert (resolve (stream [] bc {[name := target]} {[addr := name]} [])
              name = target)
      as Hres by (unfold resolve; cbn; by rewrite lookup_singleton_eq).
    repeat split.
    + cbn [bytecode patched stream]. rewrite Hres, Haddr, Haddr1.
      unfold bc. rewrite <- !app_assoc.
      rewrite (app_assoc (nullary_bytes op body)).
      rewrite !insert_app_r_alt by lia.
      replace (_ + 1 - _)%nat with 1%nat by lia.
      replace (_ + 2 - _)%nat with 2%nat by lia.
      cbn. by rewrite <- !app_assoc.
    + cbn [labels patched stream]. apply lookup_singleton_eq.
    + cbn [stdout patched stream]. unfold warning. by rewrite Hres.
  - unfold addr. lia.
  - unfold addr, bc. rewrite !length_app. cbn [length]. lia.
Qed.


(** ** Immediate operands in a program *)

(** The opcode of [store] and [cmp] with a string for operand. *)
Definition string_opcode (op : opcode.table) (t : TokenType) : option Z :=
  match t with
  | token.STORE => Some (opcode.STRING_STORE op)
  | token.CMP => Some (opcode.CMP_STRING op)
  | _ => None
  end.

(** The opcode of a statement that takes an absolute address. *)
Definition target_opcode (op : opcode.table) (t : TokenType) : option Z :=
  match t with
  | token.TRAP => Some (opcode.TRAP_OP op)
  | _ => branch_opcode op t
  end.

Section Immediates.

Variable op : opcode.table.

Lemma storeOp_int_run t0 alit a c ilit rest bc lb fx out :
  is_register alit a ->
  storeOp op (stream (t0 :: tk token.IDENT alit :: tk token.COMMA c
                        :: tk token.INT ilit :: rest) bc lb fx out)
  = Ok tt (stream (tk token.INT ilit :: rest)
             (bc ++ [byte (opcode.INT_STORE op); a;
                     low_byte (strconv.ParseInt ilit 0).1;
                     high_byte (strconv.ParseInt ilit 0).1]) lb fx out).
Proof. intros [Ha Hra]. encoded. Qed.

Lemma cmpOp_int_run t0 alit a c ilit rest bc lb fx out :
  is_register alit a ->
  cmpOp op (stream (t0 :: tk token.IDENT alit :: tk token.COMMA c
                      :: tk token.INT ilit :: rest) bc lb fx out)
  = Ok tt (stream (tk token.INT ilit :: rest)
             (bc ++ [byte (opcode.CMP_IMMEDIATE op); a;
                     low_byte (strconv.ParseInt ilit 0).1;
                     high_byte (strconv.ParseInt ilit 0).1]) lb fx out).
Proof. intros [Ha Hra]. encoded. Qed.

Lemma storeOp_string_run t0 alit a c lit rest bc lb fx out :
  is_register alit a ->
  storeOp op (stream (t0 :: tk token.IDENT alit :: tk token.COMMA c
                        :: tk token.STRING lit :: rest) bc lb fx out)
  = Ok tt (stream (tk token.STRING lit :: rest)
             (bc ++ [byte (opcode.STRING_STORE op); a;
                     low_byte (Z.of_nat (String.length lit));
                     high_byte (Z.of_nat (String.length lit))]
                 ++ bytes_of_string lit) lb fx out).
Proof. intros [Ha Hra]. encoded. Qed.

Lemma cmpOp_string_run t0 alit a c lit rest bc lb fx out :
  is_register alit a ->
  cmpOp op (stream (t0 :: tk token.IDENT alit :: tk token.COMMA c
                      :: tk token.STRING lit :: rest) bc lb fx out)
  = Ok tt (stream (tk token.STRING lit :: rest)
             (bc ++ [byte (opcode.CMP_STRING op); a;
                     low_byte (Z.of_nat (String.length lit));
                     high_byte (Z.of_nat (String.length lit))]
                 ++ bytes_of_string lit) lb fx out).
Proof. intros [Ha Hra]. encoded. Qed.

Lemma jumpOp_int_run operator t0 ilit rest bc lb fx out :
  jumpOp operator (stream (t0 :: tk token.INT ilit :: rest) bc lb fx out)
  = Ok tt (stream (tk token.INT ilit :: rest)
             (bc ++ [byte operator;
                     low_byte (strconv.ParseInt ilit 0).1;
                     high_byte (strconv.ParseInt ilit 0).1]) lb fx out).
Proof. encoded. Qed.

Lemma callOp_int_run t0 ilit rest bc lb fx out :
  callOp op (stream (t0 :: tk token.INT ilit :: rest) bc lb fx out)
  = Ok tt (stream (tk token.INT ilit :: rest)
             (bc ++ [byte (opcode.STACK_CALL op);
                     low_byte (strconv.ParseInt ilit 0).1;
                     high_byte (strconv.ParseInt ilit 0).1]) lb fx out).
Proof. encoded. Qed.

Lemma trapOp_int_run t0 ilit rest bc lb fx out :
  trapOp op (stream (t0 :: tk token.INT ilit :: rest) bc lb fx out)
  = Ok tt (stream (tk token.INT ilit :: rest)
             (bc ++ [byte (opcode.TRAP_OP op);
                     low_byte (strconv.ParseInt ilit 0).1;
                     high_byte (strconv.ParseInt ilit 0).1]) lb fx out).
Proof. encoded. Qed.

(** X8.  [store] and [cmp] with an integer literal, anywhere in a program:
    the opcode for an integer operand, the register, and the low and the
    high byte of what [strconv.ParseInt] makes of the literal, whose error
    is dropped. *)
Theorem integer_operand_statement t s o alit a c ilit rest bc lb fx out :
  address_opcode op t = Some o ->
  is_register alit a ->
  Compile op (stream (tk t s :: tk token.IDENT alit :: tk token.COMMA c
                        :: tk token.INT ilit :: rest) bc lb fx out)
  = Compile op (stream rest
                  (bc ++ [byte o; a; low_byte (strconv.ParseInt ilit 0).1;
                          high_byte (strconv.ParseInt ilit 0).1])
                  lb fx out).
Proof.
  intros Ho Ha. apply Compile_scan_eq.
  destruct t; try discriminate Ho; injection Ho as <-;
    (eapply scan_step;
     [ cbn; discriminate
     | switch;
       lazymatch goal with
       | |- storeOp _ _ = _ => apply storeOp_int_run
       | |- cmpOp _ _ = _ => apply cmpOp_int_run
       end; eassumption
     | apply advance_stream ]).
Qed.

(** X9.  [store] and [cmp] with a string literal, anywhere in a program:
    the opcode for a string operand, the register, the two bytes of the
    length of the string, and the bytes of the string. *)
Theorem string_operand_statement t s o alit a c lit rest bc lb fx out :
  string_opcode op t = Some o ->
  is_register alit a ->
  Compile op (stream (tk t s :: tk token.IDENT alit :: tk token.COMMA c
                        :: tk token.STRING lit :: rest) bc lb fx out)
  = Compile op (stream rest
                  (bc ++ [byte o; a;
                          low_byte (Z.of_nat (String.length lit));
                          high_byte (Z.of_nat (String.length lit))]
                      ++ bytes_of_string lit) lb fx out).
Proof.
  intros Ho Ha. apply Compile_scan_eq.
  destruct t; try discriminate Ho; injection Ho as <-;
    (eapply scan_step;
     [ cbn; discriminate
     | switch;
       lazymatch goal with
       | |- storeOp _ _ = _ => apply storeOp_string_run
       | |- cmpOp _ _ = _ => apply cmpOp_string_run
       end; eassumption
     | apply advance_stream ]).
Qed.

(** X10.  A jump, a [call] or a trap with an integer literal, anywhere in a
    program: the opcode and the low and the high byte of what
    [strconv.ParseInt] makes of the literal. *)
Theorem target_statement t s o ilit rest bc lb fx out :
  target_opcode op t = Some o ->
  Compile op (stream (tk t s :: tk token.INT ilit :: rest) bc lb fx out)
  = Compile op (stream rest
                  (bc ++ [byte o; low_byte (strconv.ParseInt ilit 0).1;
                          high_byte (strconv.ParseInt ilit 0).1])
                  lb fx out).
Proof.
  intros Ho. apply Compile_scan_eq.
  destruct t; try discriminate Ho; injection Ho as <-;
    (eapply scan_step;
     [ cbn; discriminate
     | switch;
       lazymatch goal with
       | |- jumpOp _ _ = _ => apply jumpOp_int_run
       | |- callOp _ _ = _ => apply callOp_int_run
       | |- trapOp _ _ = _ => apply trapOp_int_run
       end
     | apply advance_stream ]).
Qed.

End Immediates.


(** ** Registers that are not registers *)

(** The statements whose first operand is a register. *)
Definition takes_register (t : TokenType) : bool :=
  match t with
  | token.INC | token.DEC | token.RANDOM | token.IS_INTEGER
  | token.IS_STRING | token.STRING2INT | token.INT2STRING | token.SYSTEM
  | token.PUSH | token.POP | token.PRINT_INT | token.PRINT_STR
  | token.PEEK | token.POKE | token.ADD | token.XOR | token.SUB | token.MUL
  | token.DIV | token.AND | token.OR | token.MEMCPY | token.CONCAT
  | token.STORE | token.CMP => true
  | _ => false
  end.

Lemma getRegister_exit s i p :
  strconv.Atoi (TrimPrefix s "#") = (i, None) -> ~ 0 <= i <= 15 ->
  getRegister s p = Exit 1 (stdout p ++ [RegisterOutOfBounds s]).
Proof.
  intros Ha Hi. unfold getRegister. rewrite Ha.
  destruct ((0 <=? i) && (i <=? 15)) eqn:E; [|reflexivity].
  apply andb_true_iff in E as [E1 E2]. apply Z.leb_le in E1, E2. lia.
Qed.

Lemma getRegister_panic s i e p :
  strconv.Atoi (TrimPrefix s "#") = (i, Some e) ->
  getRegister s p = Panic (stdout p).
Proof. intros Ha. unfold getRegister. by rewrite Ha. Qed.

Lemma bind_panic {A B} (m : M A) (f : A -> M B) p o :
  m p = Panic o -> bind m f p = Panic o.
Proof. unfold bind. by intros ->. Qed.

Section BadRegister.

Variable op : opcode.table.

Lemma scan_panic p out :
  token.Type_ (curToken p) <> token.EOF ->
  Compile_switch op p = Panic out ->
  Compile_scan op p = Panic out.
Proof.
  intros Hc Hs. rewrite Compile_scan_loop.
  replace (rounds p) with (S (length (l p) + 1))
    by (unfold rounds; lia).
  cbn [Compile_loop]. unfold bind, curTokenIs, gets.
  rewrite bool_decide_eq_false_2 by done. by rewrite Hs.
Qed.

(** Up to the first register of the statement. *)
Ltac to_register := switch; encoders; stepping.

(** X18.  Every statement whose first operand is a register, anywhere in a
    program: when the digits after the hash sign give a number outside 0
    to 15, the compiler prints the register-out-of-bounds message with the
    operand as written and exits with status 1, whatever follows. *)
Theorem register_out_of_range_exits t s rlit i rest bc lb fx out :
  takes_register t = true ->
  strconv.Atoi (TrimPrefix rlit "#") = (i, None) -> ~ 0 <= i <= 15 ->
  Compile op (stream (tk t s :: tk token.IDENT rlit :: rest) bc lb fx out)
  = Exit 1 (out ++ [RegisterOutOfBounds rlit]).
Proof.
  intros Ht Ha Hi. unfold Compile. apply bind_exit.
  destruct t; try discriminate Ht;
    (apply scan_exit;
     [ cbn; discriminate
     | to_register; apply bind_exit;
       by rewrite (getRegister_exit rlit i) ]).
Qed.

(** X19.  Every statement whose first operand is a register, anywhere in a
    program: when what follows the hash sign is no decimal number (a label
    name, say), [getRegister] panics; nothing is printed before. *)
Theorem register_malformed_panics t s rlit i e rest bc lb fx out :
  takes_register t = true ->
  strconv.Atoi (TrimPrefix rlit "#") = (i, Some e) ->
  Compile op (stream (tk t s :: tk token.IDENT rlit :: rest) bc lb fx out)
  = Panic out.
Proof.
  intros Ht Ha. unfold Compile. apply bind_panic.
  destruct t; try discriminate Ht;
    (apply scan_panic;
     [ cbn; discriminate
     | to_register; apply bind_panic;
       by rewrite (getRegister_panic rlit i e) ]).
Qed.

End BadRegister.

(** ** What [expectPeek] returns *)

Lemma expectPeek_cases t p :
  (token.Type_ (peekToken p) = t /\
   expectPeek t p = Ok true (advance p)) \/
  (token.Type_ (peekToken p) <> t /\
   expectPeek t p
   = Exit 1 (stdout p ++ [ExpectedNext t (token.Type_ (curToken p))])).
Proof.
  destruct (decide (token.Type_ (peekToken p) = t)) as [Ht|Ht].
  - left. split; [exact Ht|]. by apply expectPeek_run.
  - right. split; [exact Ht|].
    unfold expectPeek, bind, peekTokenIs, gets.
    by rewrite bool_decide_eq_false_2.
Qed.


(** ** How a run ends *)

(** The messages that go with an exit. *)
Definition is_error (m : Msg) : Prop :=
  match m with
  | RegisterOutOfBounds _ | ExpectedNext _ _ | InvalidStore _ => True
  | _ => False
  end.

(** An exit with status 1, an error message the last thing printed. *)
Definition error_exit (c : Z) (o : list Msg) : Prop :=
  c = 1 /\ exists o' m, o = o' ++ [m] /\ is_error m.

Lemma bind_Exit {A B} (m : M A) (f : A -> M B) p c o :
  bind m f p = Exit c o ->
  m p = Exit c o \/ exists a p1, m p = Ok a p1 /\ f a p1 = Exit c o.
Proof.
  unfold bind. destruct (m p) as [a p1| | |]; intros H;
    [right; eauto | left; by injection H as -> -> | discriminate H | discriminate H].
Qed.

Lemma expectPeek_Exit t p c o :
  expectPeek t p = Exit c o -> error_exit c o.
Proof.
  destruct (expectPeek_cases t p) as [[_ ->]|[_ ->]]; [discriminate|].
  intros H. injection H as <- <-. split; [done|]. by eexists _, _.
Qed.

Lemma getRegister_Exit s p c o :
  getRegister s p = Exit c o -> error_exit c o.
Proof.
  unfold getRegister, panic, bind, Printf, modify, os_Exit, ret.
  destruct (strconv.Atoi _) as [i [e|]]; [discriminate|].
  destruct (_ && _); [discriminate|]. cbn.
  intros H. injection H as <- <-. split; [done|]. by eexists _, _.
Qed.

Lemma append_all_Exit bs p c o : append_all bs p = Exit c o -> False.
Proof. by rewrite append_all_run. Qed.

(** A run that exited, traced back to the call that exited. *)
Ltac exit1 :=
  match goal with
  | H : bind _ _ _ = Exit _ _ |- _ =>
      let a := fresh "a" in
      let q := fresh "q" in
      let R := fresh "R" in
      apply bind_Exit in H; destruct H as [H | (a & q & R & H)]
  | H : expectPeek _ _ = Exit _ _ |- _ => exact (expectPeek_Exit _ _ _ _ H)
  | H : getRegister _ _ = Exit _ _ |- _ => exact (getRegister_Exit _ _ _ _ H)
  | H : append_all _ _ = Exit _ _ |- _ =>
      destruct (append_all_Exit _ _ _ _ H)
  | H : os_Exit _ _ = Exit _ _ |- _ =>
      injection H as <- <-; split; [reflexivity|]; by eexists _, _
  | H : ret _ _ = Exit _ _ |- _ => discriminate H
  | H : gets _ _ = Exit _ _ |- _ => discriminate H
  | H : curType _ = Exit _ _ |- _ => discriminate H
  | H : curLiteral _ = Exit _ _ |- _ => discriminate H
  | H : curTokenIs _ _ = Exit _ _ |- _ => discriminate H
  | H : peekTokenIs _ _ = Exit _ _ |- _ => discriminate H
  | H : modify _ _ = Exit _ _ |- _ => discriminate H
  | H : append _ _ = Exit _ _ |- _ => discriminate H
  | H : Printf _ _ = Exit _ _ |- _ => discriminate H
  | H : nextToken _ = Exit _ _ |- _ => discriminate H
  | H : (if negb true then _ else _) _ = Exit _ _ |- _ => cbn [negb] in H
  | H : (if ?b then _ else _) _ = Exit _ _ |- _ => destruct b eqn:?
  | H : (match ?t with token.EOF => _ | _ => _ end) _ = Exit _ _ |- _ =>
      destruct t eqn:?
  end.

Ltac exits := repeat first [exit1 | run1].

Lemma dataOp_loop_Exit n p c o :
  dataOp_loop n p = Exit c o -> error_exit c o.
Proof.
  revert p. induction n as [|n IH]; intros p H; cbn [dataOp_loop] in H.
  - exits; discriminate.
  - exits; eauto.
Qed.

Lemma dataOp_Exit p c o : dataOp p = Exit c o -> error_exit c o.
Proof.
  unfold dataOp. intros H. exits; eauto using dataOp_loop_Exit.
Qed.

Section Ends.

Variable op : opcode.table.

Lemma Compile_switch_Exit p c o :
  Compile_switch op p = Exit c o -> error_exit c o.
Proof.
  unfold Compile_switch. intros H.
  exits;
    first
      [ eapply dataOp_Exit; eassumption
      | unfold exitOp, incOp, decOp, randOp, retOp, callOp, isIntOp,
          isStrOp, str2IntOp, int2StrOp, systemOp, cmpOp, concatOp,
          jumpOp, trapOp, memcpyOp, nopOp, peekOp, pokeOp, pushOp,
          popOp, storeOp, printInt, printString, mathOperation in *;
        exits ].
Qed.

Lemma Compile_loop_Exit n p c o :
  Compile_loop op n p = Exit c o -> error_exit c o.
Proof.
  revert p. induction n as [|n IH]; intros p H; cbn [Compile_loop] in H.
  - exits; discriminate.
  - exits; eauto using Compile_switch_Exit.
Qed.

Lemma Compile_fixups_Exit order p c o :
  Compile_fixups order p = Exit c o -> False.
Proof.
  revert p. induction order as [|[a n] r IH]; intros p H; [discriminate|].
  cbn [Compile_fixups] in H. apply bind_Exit in H as [H|(? & q & _ & H)];
    [|eauto].
  unfold fixup, bind, gets, Printf, modify, ret, store_byte in H.
  destruct (_ =? 0); cbn in H;
    repeat (destruct (_ && _); cbn in H; try discriminate H).
Qed.

(** X21.  The run of [Compile] on a program ends: it returns with the stream
    used up, or exits with status 1 after an error message, or panics. *)
Theorem Compile_ends ts :
  (exists p, Compile op (New ts) = Ok tt p /\
             token.Type_ (curToken p) = token.EOF) \/
  (exists o m, Compile op (New ts) = Exit 1 (o ++ [m]) /\ is_error m) \/
  (exists o, Compile op (New ts) = Panic o).
Proof.
  destruct (Compile_scan op (New ts)) as [[] p| c o | o |] eqn:Hs.
  - left. exists (patch_all (map_to_list (fixups p)) p).
    split; [exact (scanned_Compile op ts tt p Hs)|].
    assert (forall order q, curToken (patch_all order q) = curToken q) as Hc.
    { induction order as [|e r IH]; intros q; [done|].
      by rewrite patch_all_cons, IH. }
    rewrite Hc. unfold Compile_scan, bind, gets in Hs.
    by eapply Compile_loop_EOF.
  - right. left.
    assert (error_exit c o) as [-> (o' & m & -> & Hm)].
    { unfold Compile_scan, bind, gets in Hs.
      by eapply Compile_loop_Exit. }
    exists o', m. split; [|done]. unfold Compile. by apply bind_exit.
  - right. right. exists o. unfold Compile. by apply bind_panic.
  - by destruct (Compile_scan_fuel op (New ts)).
Qed.

End Ends.


(** ** The order of the pass *)

(** X22.  Go leaves the order of the second loop of [Compile] open.  After a
    scan that returned, any two orders give the same bytecode and print
    the same warnings, up to their order. *)
Theorem fixup_order_irrelevant op ts p order1 order2 :
  Compile_scan op (New ts) = Ok tt p ->
  order1 ≡ₚ map_to_list (fixups p) ->
  order2 ≡ₚ map_to_list (fixups p) ->
  exists p1 p2,
    Compile_fixups order1 p = Ok tt p1 /\
    Compile_fixups order2 p = Ok tt p2 /\
    bytecode p1 = bytecode p2 /\
    labels p1 = labels p2 /\
    stdout p1 ≡ₚ stdout p2.
Proof.
  intros Hs H1 H2. exists (patch_all order1 p), (patch_all order2 p).
  split; [by eapply scanned_fixups|]. split; [by eapply scanned_fixups|].
  split; [by eapply Compile_fixups_order; [eapply scanned_placed|..]|].
  split; [by rewrite !patch_all_labels|].
  rewrite !patch_all_stdout. apply Permutation_app_head.
  apply Permutation_flat_map. by rewrite H1, H2.
Qed.

(** ** What the scan keeps *)

(** Every label lies inside the buffer or at its end. *)
Definition labelled (p : Compiler) : Prop :=
  forall n v, labels p !! n = Some v ->
    0 <= v <= Z.of_nat (length (bytecode p)).

Lemma step_labelled p p' : step p p' -> labelled p -> labelled p'.
Proof.
  intros [_ Hl (bs & Hb & _)] Hp n v. rewrite Hl, Hb, length_app.
  intros Hn. apply Hp in Hn. lia.
Qed.

Lemma set_label_labelled name p : labelled p -> labelled (set_label name p).
Proof.
  intros Hp n v. cbn [labels bytecode set_label]. rewrite lookup_insert.
  case_decide; [intros [= <-]; lia | apply Hp].
Qed.

(** The scan appends to the buffer and adds to the references. *)
Record grown (p p' : Compiler) : Prop := mkGrown {
  grown_code : exists bs, bytecode p' = bytecode p ++ bs;
  grown_fixups : forall a n, fixups p !! a = Some n -> fixups p' !! a = Some n
}.

Lemma grown_refl p : grown p p.
Proof. split; [exists []; by rewrite app_nil_r | done]. Qed.

Lemma grown_trans p q r : grown p q -> grown q r -> grown p r.
Proof.
  intros [[b1 C1] F1] [[b2 C2] F2]. split; [|eauto].
  exists (b1 ++ b2). by rewrite C2, C1, app_assoc.
Qed.

Lemma step_grown p p' : step p p' -> placed p -> grown p p'.
Proof.
  intros [_ _ (bs & Hb & Hf)] Hpl. split; [by exists bs|].
  destruct Hf as [->|(k & name & _ & ->)]; [done|].
  intros a n Hn. rewrite lookup_insert_ne; [done|].
  apply (placed_in p Hpl) in Hn. lia.
Qed.

Section Kept.

Variable op : opcode.table.

Lemma Compile_loop_kept n p a p' :
  Compile_loop op n p = Ok a p' -> placed p -> labelled p ->
  placed p' /\ labelled p' /\ grown p p'.
Proof.
  revert p. induction n as [|n IH]; intros p H Hpl Hlb; simpl in H.
  - run; [|discriminate]. split; [done|]. split; [done|apply grown_refl].
  - run; [split; [done|]; split; [done|apply grown_refl]|].
    match goal with
    | R : Compile_switch _ _ = Ok _ ?q |- _ =>
        assert (placed (advance q) /\ labelled (advance q)
                /\ grown p (advance q)) as (Hpl' & Hlb' & Hg);
        [ apply Compile_switch_step in R as [R | [_ ->]]
        | ]
    end.
    + split; [by apply (placed_fields q), (step_placed p)|].
      split; [change (labelled q); by apply (step_labelled p)|].
      destruct (step_grown p q R Hpl) as [Hc Hf]. by split.
    + split; [by apply (placed_fields p)|].
      split; [by apply (set_label_labelled _ p)|].
      split; cbn; [exists []; by rewrite app_nil_r | done].
    + match goal with
      | R : Compile_loop _ _ _ = Ok _ _ |- _ =>
          destruct (IH _ R Hpl' Hlb') as (? & ? & ?)
      end.
      eauto using grown_trans.
Qed.

(** X23.  After [Compile] has returned, every label is an offset into the
    bytecode or its length. *)
Theorem labels_within_bytecode ts p :
  Compile op (New ts) = Ok tt p ->
  forall name v,
    labels p !! name = Some v -> 0 <= v <= Z.of_nat (length (bytecode p)).
Proof.
  intros H name v.
  destruct (Compile_scan op (New ts)) as [[] q| | |] eqn:Hs;
    try (unfold Compile, bind in H; rewrite Hs in H; discriminate H).
  rewrite (scanned_Compile op ts tt q Hs) in H. injection H as <-.
  rewrite patch_all_labels, patch_all_length.
  unfold Compile_scan, bind, gets in Hs.
  apply Compile_loop_kept in Hs as (_ & Hl & _);
    [apply Hl | apply New_placed | ].
  intros n' v'. cbn. by rewrite lookup_empty.
Qed.


End Kept.

(** ** The two tokens the compiler sees *)

Lemma iter_advance_stream k ts bc lb fx out :
  Nat.iter k advance (stream ts bc lb fx out)
  = stream (drop k ts) bc lb fx out.
Proof.
  revert ts. induction k as [|k IH]; intros ts; [by rewrite drop_0|].
  rewrite Nat.iter_succ_r. destruct ts as [|t ts].
  - rewrite advance_stream_nil, IH. by rewrite !drop_nil.
  - by rewrite advance_stream, IH.
Qed.

(** X25.  After [New] and [k] calls of [nextToken], the current token is the
    [k]-th token of the lexer and the lookahead token is the next one; past
    the end of the input both are the end of the stream. *)
Theorem lookahead_window ts k :
  curToken (Nat.iter k advance (New ts)) = nth k ts eof /\
  peekToken (Nat.iter k advance (New ts)) = nth (S k) ts eof.
Proof.
  rewrite New_stream, iter_advance_stream. cbn [curToken peekToken stream].
  revert ts. induction k as [|k IH]; intros ts.
  - by rewrite drop_0.
  - destruct ts as [|t ts]; [by rewrite drop_nil|]. apply IH.
Qed.


(** ** Dump *)

(** The tokens of a list up to the first end of the stream. *)
Fixpoint before_eof (ts : list Token) : list Token :=
  match ts with
  | [] => []
  | t :: r =>
      if bool_decide (token.Type_ t = token.EOF) then []
      else t :: before_eof r
  end.

(** The loop of [Dump]: show the current token, take the next one, until
    the end of the stream.  The lines that [fmt.Printf("%v\n", p.curToken)]
    prints are the value of the loop, one token per line; [stdout] has no
    message for them. *)
Fixpoint Dump_loop (fuel : nat) : M (list Token) :=
  eof ← curTokenIs token.EOF;
  if eof then ret [] else
  match fuel with
  | O => out_of_fuel
  | S n =>
      tok ← gets curToken;
      nextToken;;
      shown ← Dump_loop n;
      ret (tok :: shown)
  end.

(** [Dump] processes the stream of tokens from the lexer and shows the
    structure of the program. *)
Definition Dump : M (list Token) :=
  n ← gets rounds;
  Dump_loop n.

Lemma Dump_loop_run ts bc lb fx out n :
  (length ts <= n)%nat ->
  Dump_loop n (stream ts bc lb fx out)
  = Ok (before_eof ts)
      (stream (drop (length (before_eof ts)) ts) bc lb fx out).
Proof.
  revert n. induction ts as [|t ts IH]; intros n Hn.
  - destruct n; reflexivity.
  - cbn [before_eof]. destruct n as [|n]; [cbn in Hn; lia|].
    cbn [Dump_loop]. unfold bind at 1. unfold curTokenIs, gets.
    cbn [curToken stream nth].
    case_bool_decide as Ht; [reflexivity|].
    erewrite bind_run by apply curToken_stream. cbv beta.
    erewrite bind_run by apply nextToken_stream. cbv beta.
    erewrite bind_run by (apply IH; cbn in Hn; lia).
    reflexivity.
Qed.

Lemma rounds_stream ts bc lb fx out :
  (length ts <= rounds (stream ts bc lb fx out))%nat.
Proof.
  unfold rounds. cbn [l stream]. rewrite length_drop. lia.
Qed.

Lemma before_eof_stops ts :
  token.Type_ (nth (length (before_eof ts)) ts eof) = token.EOF.
Proof.
  induction ts as [|t ts IH]; [done|]. cbn [before_eof].
  case_bool_decide as Ht; [exact Ht | exact IH].
Qed.

(** X26.  [Dump] shows the tokens of the program up to the first end of
    the stream, in order, and stops there; it emits no byte and prints
    nothing else. *)
Theorem Dump_shows ts :
  exists p,
    Dump (New ts) = Ok (before_eof ts) p /\
    token.Type_ (curToken p) = token.EOF /\
    bytecode p = [] /\ stdout p = [].
Proof.
  rewrite New_stream. eexists. split.
  - unfold Dump. erewrite bind_run by reflexivity. cbv beta.
    apply Dump_loop_run, rounds_stream.
  - cbn [curToken bytecode stdout stream]. split; [|done].
    rewrite <- (before_eof_stops ts) at 1. f_equal.
    rewrite <- (Nat.add_0_r (length (before_eof ts))) at 2.
    revert ts. intros ts.
    generalize (length (before_eof ts)) as k. clear. intros k.
    revert ts. induction k as [|k IH]; intros ts.
    + by rewrite drop_0.
    + destruct ts as [|t ts]; [by rewrite drop_nil|]. apply IH.
Qed.

(** ** Statements in a program, for any numbering *)

(** X1.  Statements without operands ([exit], [ret], [nop]) anywhere in a
    program: a run of them compiles to one opcode byte each, in order, and
    leaves labels, references and output alone; compilation goes on with
    what follows. *)
Theorem nullary_statements op body rest bc lb fx out :
  Forall (nullary op) body ->
  Compile op (stream (body ++ rest) bc lb fx out)
  = Compile op (stream rest (bc ++ nullary_bytes op body) lb fx out).
Proof. apply nullary_run. Qed.

(** X7.  A jump ([goto], [jmp], [jmpz], [jmpnz]) or a [call] whose operand
    is an identifier, anywhere in a program: the opcode and two zero bytes
    are appended, and the identifier is registered as a reference at the
    offset of the first of the two, whatever the identifier is (a register
    name is taken for a label). *)
Theorem branch_label_statement op t s o name rest bc lb fx out :
  branch_opcode op t = Some o ->
  Compile op (stream (tk t s :: tk token.IDENT name :: rest) bc lb fx out)
  = Compile op (stream rest (bc ++ [byte o; 0; 0]) lb
                  (<[Z.of_nat (length bc) + 1 := name]> fx) out).
Proof. apply branch_label_run. Qed.

(** X11.  A label anywhere in a program: no byte is emitted, and the
    literal without its leading colon is bound to the current length of
    the bytecode; a label defined twice keeps the later offset. *)
Theorem label_statement op lit rest bc lb fx out :
  Compile op (stream (tk token.LABEL lit :: rest) bc lb fx out)
  = Compile op (stream rest bc
                  (<[TrimPrefix lit ":" := Z.of_nat (length bc)]> lb) fx out).
Proof. apply label_run. Qed.

(** X20.  [expectPeek] never returns false: it returns true after
    advancing, when the next token has the expected kind, and otherwise
    prints the message of [peekError] (which names the kind of the current
    token) and exits with status 1.  The early returns of its callers on a
    false result are never taken. *)
Theorem expectPeek_never_false t p :
  (token.Type_ (peekToken p) = t /\
   expectPeek t p = Ok true (advance p)) \/
  (token.Type_ (peekToken p) <> t /\
   expectPeek t p
   = Exit 1 (stdout p ++ [ExpectedNext t (token.Type_ (curToken p))])).
Proof. apply expectPeek_cases. Qed.

(** ** The properties on sample programs *)

Lemma nullary_statements_witness :
  Forall (nullary sample_opcodes)
    [tk token.NOP "nop"; tk token.RET "ret"; tk token.EXIT "exit"] /\
  Compile sample_opcodes
    (stream ([tk token.NOP "nop"; tk token.RET "ret"; tk token.EXIT "exit"]
               ++ [tk token.NOP "nop"]) [7] ∅ ∅ [])
  = Compile sample_opcodes
      (stream [tk token.NOP "nop"]
         ([7] ++ nullary_bytes sample_opcodes
                   [tk token.NOP "nop"; tk token.RET "ret";
                    tk token.EXIT "exit"]) ∅ ∅ []).
Proof.
  assert (Forall (nullary sample_opcodes)
            [tk token.NOP "nop"; tk token.RET "ret"; tk token.EXIT "exit"])
    as H by (repeat (apply Forall_cons_2; [by eexists|]); apply Forall_nil_2).
  split; [exact H|].
  exact (nullary_statements sample_opcodes _ _ _ _ _ _ H).
Defined.

Lemma unary_statement_witness :
  unary_opcode sample_opcodes token.INC = Some 37 /\
  is_register "#3" 3 /\
  Compile sample_opcodes
    (stream [tk token.INC "inc"; tk token.IDENT "#3"; tk token.EXIT "exit"]
       [7] ∅ ∅ [])
  = Compile sample_opcodes
      (stream [tk token.EXIT "exit"] ([7] ++ [byte 37; 3]) ∅ ∅ []).
Proof.
  assert (is_register "#3" 3) as H3 by (split; [reflexivity|lia]).
  split; [reflexivity|]. split; [exact H3|].
  exact (unary_statement sample_opcodes token.INC "inc" 37 "#3" 3 _ _ _ _ _
           (reflexivity _) H3).
Defined.

Lemma binary_statement_witness :
  binary_opcode sample_opcodes token.PEEK = Some 96 /\
  is_register "#1" 1 /\ is_register "#2" 2 /\
  Compile sample_opcodes
    (stream [tk token.PEEK "peek"; tk token.IDENT "#1"; tk token.COMMA ",";
             tk token.IDENT "#2"; tk token.EXIT "exit"] [7] ∅ ∅ [])
  = Compile sample_opcodes
      (stream [tk token.EXIT "exit"] ([7] ++ [byte 96; 1; 2]) ∅ ∅ []).
Proof.
  assert (is_register "#1" 1) as H1 by (split; [reflexivity|lia]).
  assert (is_register "#2" 2) as H2 by (split; [reflexivity|lia]).
  split; [reflexivity|]. split; [exact H1|]. split; [exact H2|].
  exact (binary_statement sample_opcodes token.PEEK "peek" 96 "#1" 1 ","
           "#2" 2 _ _ _ _ _ (reflexivity _) H1 H2).
Defined.

Lemma ternary_statement_witness :
  ternary_opcode sample_opcodes token.ADD = Some 33 /\
  is_register "#1" 1 /\ is_register "#2" 2 /\ is_register "#15" 15 /\
  Compile sample_opcodes
    (stream [tk token.ADD "add"; tk token.IDENT "#1"; tk token.COMMA ",";
             tk token.IDENT "#2"; tk token.COMMA ",";
             tk token.IDENT "#15"; tk token.EXIT "exit"] [7] ∅ ∅ [])
  = Compile sample_opcodes
      (stream [tk token.EXIT "exit"] ([7] ++ [byte 33; 1; 2; 15]) ∅ ∅ []).
Proof.
  assert (is_register "#1" 1) as H1 by (split; [reflexivity|lia]).
  assert (is_register "#2" 2) as H2 by (split; [reflexivity|lia]).
  assert (is_register "#15" 15) as H3 by (split; [reflexivity|lia]).
  split; [reflexivity|]. split; [exact H1|]. split; [exact H2|].
  split; [exact H3|].
  exact (ternary_statement sample_opcodes token.ADD "add" 33 "#1" 1 ","
           "#2" 2 "," "#15" 15 _ _ _ _ _ (reflexivity _) H1 H2 H3).
Defined.

Lemma register_operand_statement_witness :
  register_opcode sample_opcodes token.STORE = Some 81 /\
  is_register "#1" 1 /\ isRegister "#2" = true /\ is_register "#2" 2 /\
  Compile sample_opcodes
    (stream [tk token.STORE "store"; tk token.IDENT "#1";
             tk token.COMMA ","; tk token.IDENT "#2"; tk token.EXIT "exit"]
       [7] ∅ ∅ [])
  = Compile sample_opcodes
      (stream [tk token.EXIT "exit"] ([7] ++ [byte 81; 1; 2]) ∅ ∅ []).
Proof.
  assert (is_register "#1" 1) as H1 by (split; [reflexivity|lia]).
  assert (is_register "#2" 2) as H2 by (split; [reflexivity|lia]).
  split; [reflexivity|]. split; [exact H1|]. split; [reflexivity|].
  split; [exact H2|].
  exact (register_operand_statement sample_opcodes token.STORE "store" 81
           "#1" 1 "," "#2" 2 _ _ _ _ _ (reflexivity _) H1 (reflexivity _) H2).
Defined.

Lemma label_operand_statement_witness :
  address_opcode sample_opcodes token.STORE = Some 1 /\
  is_register "#1" 1 /\ isRegister "text" = false /\
  Compile sample_opcodes
    (stream [tk token.STORE "store"; tk token.IDENT "#1";
             tk token.COMMA ","; tk token.IDENT "text"; tk token.EXIT "exit"]
       [7] ∅ ∅ [])
  = Compile sample_opcodes
      (stream [tk token.EXIT "exit"] ([7] ++ [byte 1; 1; 0; 0]) ∅
         (<[Z.of_nat (length [7]) + 2 := "text"%string]> ∅) []).
Proof.
  assert (is_register "#1" 1) as H1 by (split; [reflexivity|lia]).
  split; [reflexivity|]. split; [exact H1|]. split; [reflexivity|].
  exact (label_operand_statement sample_opcodes token.STORE "store" 1
           "#1" 1 "," "text" _ _ _ _ _ (reflexivity _) H1 (reflexivity _)).
Defined.

Lemma branch_label_statement_witness :
  branch_opcode sample_opcodes token.CALL = Some 115 /\
  Compile sample_opcodes
    (stream [tk token.CALL "call"; tk token.IDENT "sub"; tk token.EXIT "exit"]
       [7] ∅ ∅ [])
  = Compile sample_opcodes
      (stream [tk token.EXIT "exit"] ([7] ++ [byte 115; 0; 0]) ∅
         (<[Z.of_nat (length [7]) + 1 := "sub"%string]> ∅) []).
Proof.
  split; [reflexivity|].
  exact (branch_label_statement sample_opcodes token.CALL "call" 115 "sub"
           _ _ _ _ _ (reflexivity _)).
Defined.

Lemma integer_operand_statement_witness :
  address_opcode sample_opcodes token.CMP = Some 65 /\
  is_register "#1" 1 /\
  Compile sample_opcodes
    (stream [tk token.CMP "cmp"; tk token.IDENT "#1"; tk token.COMMA ",";
             tk token.INT "0x1234"; tk token.EXIT "exit"] [7] ∅ ∅ [])
  = Compile sample_opcodes
      (stream [tk token.EXIT "exit"]
         ([7] ++ [byte 65; 1; low_byte (strconv.ParseInt "0x1234" 0).1;
                  high_byte (strconv.ParseInt "0x1234" 0).1]) ∅ ∅ []) /\
  low_byte (strconv.ParseInt "0x1234" 0).1 = 52 /\
  high_byte (strconv.ParseInt "0x1234" 0).1 = 18.
Proof.
  assert (is_register "#1" 1) as H1 by (split; [reflexivity|lia]).
  split; [reflexivity|]. split; [exact H1|].
  split; [|split; reflexivity].
  exact (integer_operand_statement sample_opcodes token.CMP "cmp" 65
           "#1" 1 "," "0x1234" _ _ _ _ _ (reflexivity _) H1).
Defined.

Lemma string_operand_statement_witness :
  string_opcode sample_opcodes token.STORE = Some 48 /\
  is_register "#1" 1 /\
  Compile sample_opcodes
    (stream [tk token.STORE "store"; tk token.IDENT "#1";
             tk token.COMMA ","; tk token.STRING "hi"; tk token.EXIT "exit"]
       [7] ∅ ∅ [])
  = Compile sample_opcodes
      (stream [tk token.EXIT "exit"]
         ([7] ++ [byte 48; 1; low_byte (Z.of_nat (String.length "hi"));
                  high_byte (Z.of_nat (String.length "hi"))]
              ++ bytes_of_string "hi") ∅ ∅ []) /\
  bytes_of_string "hi" = [104; 105].
Proof.
  assert (is_register "#1" 1) as H1 by (split; [reflexivity|lia]).
  split; [reflexivity|]. split; [exact H1|]. split; [|reflexivity].
  exact (string_operand_statement sample_opcodes token.STORE "store" 48
           "#1" 1 "," "hi" _ _ _ _ _ (reflexivity _) H1).
Defined.

Lemma target_statement_witness :
  target_opcode sample_opcodes token.TRAP = Some 128 /\
  Compile sample_opcodes
    (stream [tk token.TRAP "int"; tk token.INT "0x01"; tk token.EXIT "exit"]
       [7] ∅ ∅ [])
  = Compile sample_opcodes
      (stream [tk token.EXIT "exit"]
         ([7] ++ [byte 128; low_byte (strconv.ParseInt "0x01" 0).1;
                  high_byte (strconv.ParseInt "0x01" 0).1]) ∅ ∅ []).
Proof.
  split; [reflexivity|].
  exact (target_statement sample_opcodes token.TRAP "int" 128 "0x01"
           _ _ _ _ _ (reflexivity _)).
Defined.

Lemma stray_tokens_skipped_witness :
  Forall stray [tk token.IDENT "#1"; tk token.COMMA ","] /\
  Compile sample_opcodes
    (stream ([tk token.IDENT "#1"; tk token.COMMA ","]
               ++ [tk token.EXIT "exit"]) [7] ∅ ∅ [])
  = Compile sample_opcodes
      (stream [tk token.EXIT "exit"] [7] ∅ ∅
         ([] ++ map UnhandledToken
                  [tk token.IDENT "#1"; tk token.COMMA ","])).
Proof.
  assert (Forall stray [tk token.IDENT "#1"; tk token.COMMA ","]) as H.
  { apply Forall_cons_2; [left; reflexivity|].
    apply Forall_cons_2; [right; right; right; reflexivity|].
    apply Forall_nil_2. }
  split; [exact H|].
  exact (stray_tokens_skipped sample_opcodes _ _ _ _ _ _ H).
Defined.

Lemma data_string_statement_witness :
  is_data token.DATA /\
  Compile sample_opcodes
    (stream [tk token.DATA "DATA"; tk token.STRING "hi"; tk token.EXIT "exit"]
       [7] ∅ ∅ [])
  = Compile sample_opcodes
      (stream [tk token.EXIT "exit"] ([7] ++ bytes_of_string "hi") ∅ ∅ []).
Proof.
  assert (is_data token.DATA) as H by (right; reflexivity).
  split; [exact H|].
  exact (data_string_statement sample_opcodes token.DATA "DATA" "hi"
           _ _ _ _ _ H).
Defined.

Lemma data_integers_statement_witness :
  is_data token.DB /\
  token.Type_ (tk token.INT "1") <> token.STRING /\
  token.Type_ (nth 0 [tk token.EXIT "exit"] eof) <> token.COMMA /\
  Compile sample_opcodes
    (stream (tk token.DB "DB" :: tk token.INT "1"
               :: more_data [(","%string, "0x102"%string);
                             (","%string, "3"%string)]
               ++ [tk token.EXIT "exit"]) [7] ∅ ∅ [])
  = Compile sample_opcodes
      (stream [tk token.EXIT "exit"]
         ([7] ++ data_byte (token.Literal (tk token.INT "1"))
              :: map (fun cl => data_byte cl.2)
                   [(","%string, "0x102"%string); (","%string, "3"%string)])
         ∅ ∅ []) /\
  data_byte "0x102" = 2.
Proof.
  assert (is_data token.DB) as H by (left; reflexivity).
  assert (token.Type_ (tk token.INT "1") <> token.STRING) as H1
    by discriminate.
  assert (token.Type_ (nth 0 [tk token.EXIT "exit"] eof) <> token.COMMA)
    as H2 by discriminate.
  split; [exact H|]. split; [exact H1|]. split; [exact H2|].
  split; [|reflexivity].
  exact (data_integers_statement sample_opcodes token.DB "DB" _ _ _
           _ _ _ _ H H1 H2).
Defined.

Lemma data_dangling_comma_exits_witness :
  is_data token.DB /\
  token.Type_ (tk token.INT "1") <> token.STRING /\
  token.Type_ (nth 0 [tk token.EXIT "exit"] eof) <> token.INT /\
  Compile sample_opcodes
    (stream (tk token.DB "DB" :: tk token.INT "1"
               :: more_data [(","%string, "2"%string)]
               ++ tk token.COMMA "," :: [tk token.EXIT "exit"]) [7] ∅ ∅ [])
  = Exit 1 ([] ++ [ExpectedNext token.INT token.COMMA]).
Proof.
  assert (is_data token.DB) as H by (left; reflexivity).
  assert (token.Type_ (tk token.INT "1") <> token.STRING) as H1
    by discriminate.
  assert (token.Type_ (nth 0 [tk token.EXIT "exit"] eof) <> token.INT)
    as H2 by discriminate.
  split; [exact H|]. split; [exact H1|]. split; [exact H2|].
  exact (data_dangling_comma_exits sample_opcodes token.DB "DB" _ _ ","
           _ _ _ _ _ H H1 H2).
Defined.

Lemma forward_reference_program_witness :
  exists p,
    Compile sample_opcodes
      (New [tk token.CALL "call"; tk token.IDENT "sub"; tk token.NOP "nop";
            tk token.EXIT "exit"; tk token.LABEL ":sub"; tk token.RET "ret"])
    = Ok tt p /\
    bytecode p = [115; 5; 0; 80; 0; 114] /\
    labels p !! "sub"%string = Some 5 /\
    stdout p = [].
Proof.
  assert (Forall (nullary sample_opcodes)
            [tk token.NOP "nop"; tk token.EXIT "exit"]) as Hb
    by (repeat (apply Forall_cons_2; [by eexists|]); apply Forall_nil_2).
  assert (Forall (nullary sample_opcodes) [tk token.RET "ret"]) as Ht
    by (repeat (apply Forall_cons_2; [by eexists|]); apply Forall_nil_2).
  destruct (forward_reference_program sample_opcodes token.CALL "call" 115
              "sub" _ _ (reflexivity _) Hb Ht) as (p & Hc & Hbc & Hl & Ho).
  exists p. split; [exact Hc|]. split; [exact Hbc|].
  split; [exact Hl|exact Ho].
Defined.

Lemma backward_reference_program_witness :
  exists p,
    Compile sample_opcodes
      (New [tk token.NOP "nop"; tk token.LABEL ":loop"; tk token.NOP "nop";
            tk token.JMP "jmp"; tk token.IDENT "loop"; tk token.EXIT "exit"])
    = Ok tt p /\
    bytecode p = [80; 80; 16; 1; 0; 0] /\
    labels p !! "loop"%string = Some 1 /\
    stdout p = [].
Proof.
  assert (Forall (nullary sample_opcodes) [tk token.NOP "nop"]) as Hb
    by (repeat (apply Forall_cons_2; [by eexists|]); apply Forall_nil_2).
  assert (Forall (nullary sample_opcodes) [tk token.EXIT "exit"]) as Ht
    by (repeat (apply Forall_cons_2; [by eexists|]); apply Forall_nil_2).
  destruct (backward_reference_program sample_opcodes token.JMP "jmp" 16
              "loop" _ _ _ (reflexivity _) Hb Hb Ht)
    as (p & Hc & Hbc & Hl & Ho).
  exists p. split; [exact Hc|]. split; [exact Hbc|].
  split; [exact Hl|exact Ho].
Defined.

Lemma register_out_of_range_exits_witness :
  takes_register token.ADD = true /\
  strconv.Atoi (TrimPrefix "#16" "#") = (16, None) /\ ~ 0 <= 16 <= 15 /\
  Compile sample_opcodes
    (stream [tk token.ADD "add"; tk token.IDENT "#16"; tk token.COMMA ",";
             tk token.IDENT "#1"; tk token.COMMA ","; tk token.IDENT "#2"]
       [7] ∅ ∅ [])
  = Exit 1 ([] ++ [RegisterOutOfBounds "#16"]).
Proof.
  assert (~ 0 <= 16 <= 15) as H by lia.
  split; [reflexivity|]. split; [reflexivity|]. split; [exact H|].
  exact (register_out_of_range_exits sample_opcodes token.ADD "add" "#16" 16
           _ _ _ _ _ (reflexivity _) (reflexivity _) H).
Defined.

Lemma register_malformed_panics_witness :
  takes_register token.INC = true /\
  strconv.Atoi (TrimPrefix "counter" "#") = (0, Some strconv.ErrSyntax) /\
  Compile sample_opcodes
    (stream [tk token.INC "inc"; tk token.IDENT "counter";
             tk token.EXIT "exit"] [7] ∅ ∅ [])
  = Panic [].
Proof.
  split; [reflexivity|]. split; [reflexivity|].
  exact (register_malformed_panics sample_opcodes token.INC "inc" "counter"
           0 strconv.ErrSyntax _ _ _ _ _ (reflexivity _) (reflexivity _)).
Defined.

(** The state a program is in after [Compile]. *)
Definition compiled (ts : list Token) : Compiler :=
  match Compile sample_opcodes (New ts) with
  | Ok _ p => p
  | _ => New []
  end.

Lemma fixup_order_irrelevant_witness :
  Compile_scan sample_opcodes (New two_references_program)
  = Ok tt (scanned two_references_program) /\
  exists p1 p2,
    Compile_fixups (map_to_list (fixups (scanned two_references_program)))
      (scanned two_references_program) = Ok tt p1 /\
    Compile_fixups
      (reverse (map_to_list (fixups (scanned two_references_program))))
      (scanned two_references_program) = Ok tt p2 /\
    bytecode p1 = bytecode p2 /\
    labels p1 = labels p2 /\
    stdout p1 ≡ₚ stdout p2.
Proof.
  assert (Compile_scan sample_opcodes (New two_references_program)
          = Ok tt (scanned two_references_program)) as Hs
    by (vm_compute; reflexivity).
  split; [exact Hs|].
  exact (fixup_order_irrelevant sample_opcodes two_references_program
           (scanned two_references_program) _ _ Hs
           (reflexivity _) (reverse_Permutation _)).
Defined.

Lemma labels_within_bytecode_witness :
  Compile sample_opcodes (New two_references_program)
  = Ok tt (compiled two_references_program) /\
  labels (compiled two_references_program) !! "end"%string = Some 7 /\
  0 <= 7 <= Z.of_nat (length (bytecode (compiled two_references_program))).
Proof.
  assert (Compile sample_opcodes (New two_references_program)
          = Ok tt (compiled two_references_program)) as Hc
    by (vm_compute; reflexivity).
  assert (labels (compiled two_references_program) !! "end"%string = Some 7)
    as Hl by (vm_compute; reflexivity).
  split; [exact Hc|]. split; [exact Hl|].
  exact (labels_within_bytecode sample_opcodes two_references_program
           (compiled two_references_program) Hc "end"%string 7 Hl).
Defined.

